(** * scriptMusique: the artist catalogue script, embedded and verified

    A shallow embedding of [src/assets/scriptMusique.py].

    - A Python [str] is a sequence of Unicode code points: [list N].
    - Dynamically typed values (cells of a CSV row, the decoded JSON
      body) are [pyval]; a [dict] is a [gmap], the [seen] set a [gset].
    - An exception that escapes a function is the [Raise] case of [res].
    - Library calls whose result the script cannot decide ([str.lower],
      [urllib.parse.quote], the HTTP request with [json.loads],
      [random.choice]) are variables of the section [Script]; the
      theorems hold for every choice of them.  [lower_latin1] is the
      instance of [str.lower] used to run the script on concrete inputs
      written in ASCII and Latin-1.
    - The file system is the argument of [read_csv] (the rows of the
      reader, or nothing when the path does not exist); [main] returns
      the list it hands to [json.dump].  The progress lines and the pause
      between two lookups leave no trace in that list and are left
      out, and so are the exceptions of the reader, of the printing and
      of the writing: what is proved of [main] is proved of the list it
      builds when it builds one, and of the runs it cannot finish. *)

From Stdlib Require Import ZArith NArith String Ascii Floats.SpecFloat Lia.
From stdpp Require Import gmap list.

Set Default Proof Using "Type".

(** ** Strings *)

Abbreviation char := N (only parsing).
Abbreviation str := (list N) (only parsing).

(** An ASCII literal of the source as a sequence of code points. *)
Definition lit (s : string) : str := N_of_ascii <$> list_ascii_of_string s.

Definition nonempty {A} (l : list A) : bool :=
  match l with [] => false | _ :: _ => true end.

(** [s.startswith(p)] *)
Fixpoint startswith (p s : str) : bool :=
  match p, s with
  | [], _ => true
  | _ :: _, [] => false
  | x :: p', c :: s' => (x =? c)%N && startswith p' s'
  end.

(** [s.endswith(p)] *)
Definition endswith (p s : str) : bool := startswith (rev p) (rev s).

(** [w in n] for two strings *)
Fixpoint contains (w n : str) : bool :=
  startswith w n || match n with [] => false | _ :: t => contains w t end.

(** [str.isspace] on one code point (CPython's [_PyUnicode_IsWhitespace]). *)
Definition is_space (c : char) : bool :=
  ((9 <=? c) && (c <=? 13) || (28 <=? c) && (c <=? 32) || (c =? 133) || (c =? 160)
   || (c =? 5760) || (8192 <=? c) && (c <=? 8202) || (c =? 8232) || (c =? 8233)
   || (c =? 8239) || (c =? 8287) || (c =? 12288))%N.

Fixpoint lstrip (s : str) : str :=
  match s with
  | [] => []
  | c :: t => if is_space c then lstrip t else s
  end.

Definition rstrip (s : str) : str := rev (lstrip (rev s)).

(** [s.strip()] *)
Definition strip (s : str) : str := rstrip (lstrip s).

(** [s.split(sep)[0]] for a one-character separator: the text before
    its first occurrence, or all of [s]. *)
Fixpoint before (sep : char) (s : str) : str :=
  match s with
  | [] => []
  | c :: t => if (c =? sep)%N then [] else c :: before sep t
  end.

(** Position of the first character satisfying [P]. *)
Fixpoint find_index (P : char → bool) (s : str) : option nat :=
  match s with
  | [] => None
  | c :: t => if P c then Some 0 else S <$> find_index P t
  end.

(** ** Regular expressions of the script

    Each pattern of the source is a matcher [str → option nat]: tried
    at the head of the text, it gives the length of the match.  None of
    the patterns matches the empty string. *)

(** A pattern letter under [re.I].  The letters of the script's
    patterns are a, d, e, f, n, t: each matches itself and its ASCII
    capital, and no other code point lower-cases to one of them. *)
Definition ci_eq (x c : char) : bool :=
  ((c =? x) || (97 <=? x) && (x <=? 122) && (c =? x - 32))%N.

(** A literal pattern under [re.I], at the head of [s]. *)
Fixpoint lit_ci (p s : str) : bool :=
  match p, s with
  | [], _ => true
  | _ :: _, [] => false
  | x :: p', c :: s' => ci_eq x c && lit_ci p' s'
  end.

(** [re.sub(pattern, "", s)]: leftmost matches, not overlapping, are
    left out.  [skip] counts the characters of the current match that
    are still to be passed over. *)
Fixpoint re_sub_aux (m : str → option nat) (skip : nat) (s : str) : str :=
  match s with
  | [] => []
  | c :: t =>
      match skip with
      | S k => re_sub_aux m k t
      | O =>
          match m s with
          | Some (S k) => re_sub_aux m k t
          | _ => c :: re_sub_aux m 0 t
          end
      end
  end.

Definition re_sub (m : str → option nat) (s : str) : str := re_sub_aux m 0 s.

(** [re.split(pattern, s)] for a pattern without groups: [cur] is the
    piece being read. *)
Fixpoint re_split_aux (m : str → option nat) (skip : nat) (cur s : str) : list str :=
  match s with
  | [] => [cur]
  | c :: t =>
      match skip with
      | S k => re_split_aux m k cur t
      | O =>
          match m s with
          | Some (S k) => cur :: re_split_aux m k [] t
          | _ => re_split_aux m 0 (cur ++ [c]) t
          end
      end
  end.

Definition re_split (m : str → option nat) (s : str) : list str := re_split_aux m 0 [] s.

(** ** Python values and exceptions *)

Inductive exn := AttributeError | TypeError | SystemExit (code : Z).

Inductive res (A : Type) : Type :=
  | Ok (a : A)
  | Raise (e : exn).
Arguments Ok {A} a.
Arguments Raise {A} e.

#[global] Instance res_ret : MRet res := λ A a, Ok a.
#[global] Instance res_bind : MBind res := λ A B f m,
  match m with Ok a => f a | Raise e => Raise e end.
#[global] Instance res_fmap : FMap res := λ A B f m,
  match m with Ok a => Ok (f a) | Raise e => Raise e end.

#[warnings="-register-all"] Inductive pyval :=
  | VNone
  | VBool (b : bool)
  | VInt (z : Z)
  | VFloat (f : spec_float)
  | VStr (s : list N)
  | VList (l : list pyval)
  | VDict (d : gmap (list N) pyval).

(** [bool(v)] *)
Definition truthy (v : pyval) : bool :=
  match v with
  | VNone => false
  | VBool b => b
  | VInt z => negb (z =? 0)%Z
  | VFloat f => match f with S754_zero _ => false | _ => true end
  | VStr s => nonempty s
  | VList l => nonempty l
  | VDict d => negb (bool_decide (d = ∅))
  end.

Definition is_dict (v : pyval) : bool := match v with VDict _ => true | _ => false end.
Definition is_str (v : pyval) : bool := match v with VStr _ => true | _ => false end.

(** [v.get(k)]: [None] for an absent key, AttributeError when [v] has
    no [get]. *)
Definition get (v : pyval) (k : str) : res pyval :=
  match v with
  | VDict d => Ok (default VNone (d !! k))
  | _ => Raise AttributeError
  end.

(** [a.get(k1) or a.get(k2)] *)
Definition get_or (v : pyval) (k1 k2 : str) : res pyval :=
  a ← get v k1;
  if truthy a then Ok a else get v k2.

(** [v.strip()] *)
Definition strip_of (v : pyval) : res str :=
  match v with
  | VStr s => Ok (strip s)
  | _ => Raise AttributeError
  end.

(** ** An instance of [str.lower]

    The simple lower-case mapping of the code points up to U+00FF, which
    is what [str.lower] does on a string made of them. *)
Definition lower_char (c : char) : char :=
  (if (65 <=? c) && (c <=? 90) || (192 <=? c) && (c <=? 222) && negb (c =? 215)
   then c + 32 else c)%N.

Definition lower_latin1 (s : str) : str := lower_char <$> s.

(** ** Tactics *)

(** Replaces the literals of the goal, or of a hypothesis, by their
    code points. *)
Ltac eval_lit :=
  repeat match goal with
         | |- context [lit ?s] =>
             let x := eval vm_compute in (lit s) in change (lit s) with x
         end.

Ltac eval_lit_in H :=
  repeat match type of H with
         | context [lit ?s] =>
             let x := eval vm_compute in (lit s) in change (lit s) with x in H
         end.

(** ** Sample inputs *)

Definition icon_entry (u : str) : pyval :=
  VDict {[ lit "Icon" := VDict {[ lit "URL" := VStr u ]} ]}.



(** [{"RelatedTopics": [{"Topics": [{"Icon": {"URL": "\t"}}, {"Icon": {"URL": "/i/a.png"}}]}]}] *)
Definition body_blank_subtopic : pyval :=
  VDict {[ lit "RelatedTopics" :=
             VList [VDict {[ lit "Topics" :=
                               VList [icon_entry [9%N]; icon_entry (lit "/i/a.png")] ]}] ]}.

(** [{"Image": "", "AbstractImage": "/i/abs.jpg", "RelatedTopics":
      [{"Icon": {"URL": ""}}, {"Name": "Rap", "Topics": [{"Icon": {"URL": "/i/a.png?w=1"}}]}]}] *)
Definition body_typical : pyval :=
  VDict (list_to_map
    [(lit "Image", VStr []);
     (lit "AbstractImage", VStr (lit "/i/abs.jpg"));
     (lit "RelatedTopics",
        VList [icon_entry [];
               VDict (list_to_map
                 [(lit "Name", VStr (lit "Rap"));
                  (lit "Topics", VList [icon_entry (lit "/i/a.png?w=1")])])])]).

(** A file of three rows under the header [Track Name,Artist Name(s)];
    the last row is short. *)
Definition sample_rows : list (gmap (list N) pyval) :=
  [ {[ lit "Track Name" := VStr (lit "Au DD");
       lit "Artist Name(s)" := VStr (lit "PNL, Drake (feat. 21 Savage) [Remix]") ]};
    {[ lit "Track Name" := VStr (lit "Jumpman");
       lit "Artist Name(s)" := VStr (lit "pnl & DRAKE;Dave") ]};
    {[ lit "Track Name" := VStr (lit "Sprinter");
       lit "Artist Name(s)" := VNone ]} ].

(** A network on which every request fails. *)
Definition offline : nat → list N → option pyval := λ _ _, None.

(** [{"Image": "ftp://x/y.png", "RelatedTopics":
      ["oops", {"Icon": "oops"}, {"Icon": {"URL": "https://x/y.png"}}]}] *)
Definition body_rejected_image : pyval :=
  VDict (list_to_map
    [(lit "Image", VStr (lit "ftp://x/y.png"));
     (lit "RelatedTopics",
        VList [VStr (lit "oops"); VDict {[ lit "Icon" := VStr (lit "oops") ]};
               icon_entry (lit "https://x/y.png")])]).

(** [{"RelatedTopics": [{"Icon": "oops"}]}] *)
Definition body_icon_string : pyval :=
  VDict {[ lit "RelatedTopics" := VList [VDict {[ lit "Icon" := VStr (lit "oops") ]}] ]}.

(** A network on which the second request is answered with the JSON
    list [[]] and the others fail. *)
Definition second_is_list : nat → list N → option pyval :=
  λ i _, if Nat.eqb i 2 then Some (VList []) else None.

(** A network that answers every request with the body [j]. *)
Definition always (j : pyval) : nat → list N → option pyval := λ _ _, Some j.

(** ** The script *)

Section Script.

(** [str.lower] *)
Variable lower : str → str.
(** [urllib.parse.quote], on the strings it accepts (it raises on a
    lone surrogate, which no decoded file holds). *)
Variable quote : str → str.
(** The request of the [i]-th lookup with [json.loads] on its body:
    [None] when anything inside the [try] block raises. *)
Variable urlopen_json : nat → str → option pyval.
(** The index [random.choice] draws at the [i]-th iteration. *)
Variable rng : nat → nat.

Definition PLACEHOLDER : str := lit "https://via.placeholder.com/400x400.png?text=Artist".

(** The ratings are rows of U+2605, some closed by U+00BD. *)
Definition RATINGS : list str :=
  [[9733; 9733; 9733; 9733; 9733]; [9733; 9733; 9733; 9733; 189];
   [9733; 9733; 9733; 9733]; [9733; 9733; 9733; 189]]%N.

Inductive region := fr | uk | us | other.

Definition region_name (r : region) : str :=
  match r with fr => lit "fr" | uk => lit "uk" | us => lit "us" | other => lit "other" end.

(** The dict keeps the order in which it is written. *)
Definition REGION_HINTS : list (region * list str) :=
  [(fr, lit <$> ["nekfeu"; "damso"; "laylow"; "freeze corleone"; "vald"; "pnl"; "ninho";
                 "gazo"; "alpha wann"; "booba"; "jul"; "sch"]%string);
   (uk, lit <$> ["central cee"; "dave"; "stormzy"; "aj tracey"; "skepta"; "headie one";
                 "arrdee"; "unknown t"; "digga d"]%string);
   (us, lit <$> ["kendrick lamar"; "travis scott"; "kanye west"; "drake"; "j. cole";
                 "21 savage"; "future"; "lil baby"; "playboi carti"; "young thug"]%string)].

(** The character class of [guess_region]:
    U+00E9 U+00E8 U+00E0 U+00F9 U+00E7 U+00EE U+00EF U+00F4 U+00EA U+00E2. *)
Definition ACCENTS : str := [233; 232; 224; 249; 231; 238; 239; 244; 234; 226]%N.

Definition in_class (cls : str) (c : char) : bool := existsb (N.eqb c) cls.

(** The loop over [REGION_HINTS.items()] with its early return. *)
Fixpoint scan_hints (hints : list (region * list str)) (n : str) : option region :=
  match hints with
  | [] => None
  | (reg, words) :: rest =>
      if existsb (λ w, contains w n) words then Some reg else scan_hints rest n
  end.

Definition guess_region (name : str) : region :=
  let n := lower name in
  match scan_hints REGION_HINTS n with
  | Some reg => reg
  | None => if existsb (in_class ACCENTS) n then fr else other
  end.

(** [\(feat[^\)]*\)] under [re.I] *)
Definition match_feat (s : str) : option nat :=
  if lit_ci (lit "(feat") s
  then i ← find_index (N.eqb 41) (drop 5 s); Some (5 + i + 1)
  else None.

(** [\[.*?\]]: the dot stops at a line feed. *)
Definition match_bracket (s : str) : option nat :=
  match s with
  | c :: t =>
      if (c =? 91)%N
      then i ← find_index (λ c, (c =? 93)%N || (c =? 10)%N) t;
           if (default 0 (t !! i) =? 93)%N then Some (i + 2) else None
      else None
  | [] => None
  end.

Definition clean_name (name : str) : str :=
  let name := re_sub match_feat name in
  let name := re_sub match_bracket name in
  strip name.

(** [[;,/]| feat\.| ft\. |&| and ] under [re.I], the alternatives in
    their order. *)
Definition match_sep (s : str) : option nat :=
  match s with
  | [] => None
  | c :: _ =>
      if in_class (lit ";,/") c then Some 1
      else if lit_ci (lit " feat.") s then Some 6
      else if lit_ci (lit " ft. ") s then Some 5
      else if (c =? 38)%N then Some 1
      else if lit_ci (lit " and ") s then Some 5
      else None
  end.

(** The loop of [split_artists] over the pieces. *)
Fixpoint keep_names (parts : list str) : list str :=
  match parts with
  | [] => []
  | p :: rest =>
      let p := strip (clean_name p) in
      if nonempty p then p :: keep_names rest else keep_names rest
  end.

Definition split_artists (raw : pyval) : res (list str) :=
  if negb (truthy raw) then Ok []
  else match raw with
       | VStr s => Ok (keep_names (re_split match_sep s))
       | _ => Raise TypeError
       end.

Definition IMAGE_EXTS : list str := lit <$> [".jpg"; ".jpeg"; ".png"; ".gif"; ".webp"]%string.

(** The body of [normalize_image_url] once [u] is a non-empty string. *)
Definition normalize_str (u : str) : str :=
  let u := before 63 u in
  let u := if startswith (lit "//") u then lit "https:" ++ u else u in
  let u := if startswith (lit "/") u then lit "https://duckduckgo.com" ++ u else u in
  if startswith (lit "http://") u || startswith (lit "https://") u
  then if existsb (λ ext, endswith ext (lower u)) IMAGE_EXTS then u else u
  else [].

Definition normalize_image_url (u : pyval) : res str :=
  if negb (truthy u) then Ok []
  else match u with
       | VStr s => Ok (normalize_str s)
       | _ => Raise AttributeError
       end.

(** The icon test made on an entry and on a sub-topic; [Some r] when the
    function returns [r] there. *)
Definition icon_url (item : pyval) : res (option str) :=
  i ← get item (lit "Icon");
  let icon := if truthy i then i else VDict ∅ in
  url_icon ← get_or icon (lit "URL") (lit "url");
  if truthy url_icon
  then s ← strip_of url_icon;
       if nonempty s then Some <$> normalize_image_url url_icon else Ok None
  else Ok None.

Fixpoint scan_topics (topics : list pyval) : res (option str) :=
  match topics with
  | [] => Ok None
  | sub :: rest =>
      hit ← (if is_dict sub then icon_url sub else Ok None);
      match hit with
      | Some r => Ok (Some r)
      | None => scan_topics rest
      end
  end.

Fixpoint scan_related (rt : list pyval) : res (option str) :=
  match rt with
  | [] => Ok None
  | item :: rest =>
      hit ← (if is_dict item then icon_url item else Ok None);
      match hit with
      | Some r => Ok (Some r)
      | None =>
          topics ← (if is_dict item then get item (lit "Topics") else Ok VNone);
          hit ← match topics with
                | VList l => if truthy topics then scan_topics l else Ok None
                | _ => Ok None
                end;
          match hit with
          | Some r => Ok (Some r)
          | None => scan_related rest
          end
      end
  end.

(** [ddg_search_image] after the [try] block, on the decoded body. *)
Definition extract_image (j : pyval) : res str :=
  img ← get_or j (lit "Image") (lit "image");
  match img with
  | VStr s =>
      if truthy img && nonempty (strip s) then Some <$> normalize_image_url img else Ok None
  | _ => Ok None
  end ≫= λ hit,
  match hit with
  | Some r => Ok r
  | None =>
      r ← get j (lit "RelatedTopics");
      let rt := if truthy r then r else VList [] in
      match rt with VList l => scan_related l | _ => Ok None end ≫= λ hit,
      match hit with
      | Some r => Ok r
      | None =>
          abs_img ← get j (lit "AbstractImage");
          if truthy abs_img then normalize_image_url abs_img else Ok []
      end
  end.

Definition query_url (artist : str) : str :=
  lit "https://api.duckduckgo.com/?q=" ++ quote (artist ++ lit " musician")
  ++ lit "&format=json&no_html=1&skip_disambig=1".

Definition ddg_search_image (i : nat) (artist : str) : res str :=
  match urlopen_json i (query_url artist) with
  | None => Ok []
  | Some j => extract_image j
  end.

(** One step of the inner loop of [read_csv] on the pair
    ([artists], [seen]). *)
Definition see (st : list str * gset (list N)) (p : str) : list str * gset (list N) :=
  let key := lower p in
  if decide (key ∉ st.2) then (st.1 ++ [p], {[key]} ∪ st.2) else st.

(** [row.get("Artist Name(s)") or row.get("artist") or row.get("Artist") or ""] *)
Definition raw_of (row : gmap (list N) pyval) : pyval :=
  let a := default VNone (row !! lit "Artist Name(s)") in
  if truthy a then a else
  let b := default VNone (row !! lit "artist") in
  if truthy b then b else
  let c := default VNone (row !! lit "Artist") in
  if truthy c then c else VStr [].

(** The loop of [read_csv] over the rows of the reader. *)
Fixpoint read_rows (rows : list (gmap (list N) pyval)) (st : list str * gset (list N))
  : res (list str * gset (list N)) :=
  match rows with
  | [] => Ok st
  | row :: rest =>
      parts ← split_artists (raw_of row);
      read_rows rest (foldl see st parts)
  end.

(** [file] is [None] when the path does not exist, and else the rows
    [csv.DictReader] yields. *)
Definition read_csv (file : option (list (gmap (list N) pyval))) : res (list str) :=
  match file with
  | None => Raise (SystemExit 1)
  | Some rows => fst <$> read_rows rows ([], ∅)
  end.

Record entry := Entry {
  name : str; url : str; region_of : region; image : str; rating : str
}.

(** The body of the loop of [main] for the artist of index [i]. *)
Definition build_entry (i : nat) (artist : str) : res entry :=
  let region := guess_region artist in
  let rating := default [] (RATINGS !! (rng i mod length RATINGS)) in
  img ← ddg_search_image i artist;
  let img := if negb (nonempty img) then [] else img in
  let img := if negb (nonempty img) then PLACEHOLDER else img in
  Ok (Entry artist (lit "https://open.spotify.com/search/artist%3A" ++ quote artist)
        region img rating).

Fixpoint build_all (i : nat) (artists : list str) : res (list entry) :=
  match artists with
  | [] => Ok []
  | artist :: rest =>
      e ← build_entry i artist;
      out ← build_all (S i) rest;
      Ok (e :: out)
  end.

(** The list [main] hands to [json.dump]. *)
Definition main (file : option (list (gmap (list N) pyval))) : res (list entry) :=
  artists ← read_csv file;
  build_all 1 artists.

(** ** Notions of the specification *)

(** [w] occurs in [n]. *)
Definition infix_of (w n : str) : Prop := ∃ pre post, n = pre ++ w ++ post.

(** A pattern character and a character it stands for when case is
    ignored. *)
Definition ci_char (x c : char) : Prop :=
  c = x ∨ ((97 ≤ x)%N ∧ (x ≤ 122)%N ∧ c = (x - 32)%N).

(** [s] is the text [p] up to the case of its letters. *)
Definition ci_variant (p s : str) : Prop := Forall2 ci_char p s.

(** *** Region Classifier *)

Definition keyword_hit (n : str) (r : region) : Prop :=
  ∃ words w, (r, words) ∈ REGION_HINTS ∧ w ∈ words ∧ infix_of w n.

(** The priority order fr, uk, us. *)
Definition rank (r : region) : nat :=
  match r with fr => 0 | uk => 1 | us => 2 | other => 3 end.

Inductive classified (n : str) : region → Prop :=
  | by_keyword r :
      keyword_hit n r → (∀ r', rank r' < rank r → ¬ keyword_hit n r') → classified n r
  | by_accent :
      (∀ r, ¬ keyword_hit n r) → (∃ c, c ∈ n ∧ c ∈ ACCENTS) → classified n fr
  | by_default :
      (∀ r, ¬ keyword_hit n r) → (∀ c, c ∈ n → c ∉ ACCENTS) → classified n other.

(** The vowels French writes with an accent, small and capital:
    U+00E0 U+00E2 U+00E9 U+00E8 U+00EA U+00EB U+00EE U+00EF U+00F4 U+00F9
    U+00FB U+00FC U+00FF and U+00C0 U+00C2 U+00C9 U+00C8 U+00CA U+00CB
    U+00CE U+00CF U+00D4 U+00D9 U+00DB U+00DC U+0178. *)
Definition FRENCH_ACCENTED_VOWELS : str :=
  [224; 226; 233; 232; 234; 235; 238; 239; 244; 249; 251; 252; 255;
   192; 194; 201; 200; 202; 203; 206; 207; 212; 217; 219; 220; 376]%N.

(** *** Name Normalizer *)

(** A parenthesis that opens with the word feat, in any case. *)
Definition has_feat (s : str) : Prop :=
  ∃ pre kw w post, s = pre ++ 40%N :: kw ++ w ++ 41%N :: post ∧ ci_variant (lit "feat") kw.

(** A bracketed text. *)
Definition has_bracketed (s : str) : Prop :=
  ∃ pre w post, s = pre ++ 91%N :: w ++ 93%N :: post.

(** A bracketed text within one line. *)
Definition has_bracketed_line (s : str) : Prop :=
  ∃ pre w post, s = pre ++ 91%N :: w ++ 93%N :: post ∧ 10%N ∉ w.

Definition trimmed (s : str) : Prop :=
  ∀ c, head s = Some c ∨ last s = Some c → is_space c = false.

(** No parenthesis or bracket opens inside an open parenthesis;
    [inside] tells whether a parenthesis is open. *)
Fixpoint flat (inside : bool) (s : str) : bool :=
  match s with
  | [] => true
  | c :: t =>
      if inside
      then if (c =? 41)%N then flat false t
           else negb ((c =? 40)%N || (c =? 91)%N) && flat true t
      else flat (c =? 40)%N t
  end.

(** [m] matches at no position of [s]. *)
Definition no_match (m : str → option nat) (s : str) : Prop :=
  ∀ pre post, s = pre ++ post → m post = None.

(** The text after an opening bracket reaches a closing bracket before
    the end of the line. *)
Fixpoint closes (t : str) : bool :=
  match t with
  | [] => false
  | c :: t' => if (c =? 93)%N then true else if (c =? 10)%N then false else closes t'
  end.

(** The text goes on with the letters [p], in any case, and then
    reaches a closing parenthesis. *)
Fixpoint opens (p t : str) : bool :=
  match p, t with
  | [], _ => existsb (N.eqb 41) t
  | _ :: _, [] => false
  | x :: p', c :: t' => ci_eq x c && opens p' t'
  end.

(** *** Splitter *)

Definition SEPARATORS : list str :=
  lit <$> [";"; ","; "/"; " feat."; " ft. "; "&"; " and "]%string.

Definition is_separator (s : str) : Prop := ∃ p, p ∈ SEPARATORS ∧ ci_variant p s.

(** No separator occurs in [f], also when a space follows [f]. *)
Definition sep_free (f : str) : Prop :=
  ∀ pre s post, is_separator s → f ++ [32%N] ≠ pre ++ s ++ post.

(** The first characters of the separators. *)
Definition SEP_HEADS : str := [59; 44; 47; 38; 32]%N.

(** Where a character of the pattern [p] can stand for the first
    character of a separator, it is the space that ends [p]. *)
Fixpoint ends_on_space (p : str) : bool :=
  match p with
  | [] => true
  | x :: v =>
      forallb (λ c, negb (ci_eq x c) || (x =? 32)%N && negb (nonempty v)) SEP_HEADS
      && ends_on_space v
  end.

(** The test of [sep_free]: no match starts in [f] when a space
    follows it. *)
Definition sep_free_b (f : str) : bool :=
  forallb (λ k, match match_sep (drop k (f ++ [32%N])) with None => true | Some _ => false end)
          (seq 0 (length f + 1)).

(** The cell made of the fragment [f0] and of the fragments [tl], each
    behind its separator. *)
Definition join (f0 : str) (tl : list (str * str)) : str :=
  f0 ++ concat ((λ sf, sf.1 ++ sf.2) <$> tl).

(** *** Image Resolver *)

Definition lookup_key (v : pyval) (k : str) : pyval :=
  match v with VDict d => default VNone (d !! k) | _ => VNone end.

Definition or_else (a b : pyval) : pyval := if truthy a then a else b.

(** The icon URL an entry or a sub-topic carries. *)
Definition icon_of (item : pyval) : pyval :=
  let icon := lookup_key item (lit "Icon") in
  or_else (lookup_key icon (lit "URL")) (lookup_key icon (lit "url")).

(** The icons of one entry of the related topics: its own, then those
    of its sub-topics. *)
Definition icons_of_entry (item : pyval) : list pyval :=
  if is_dict item
  then icon_of item ::
       match lookup_key item (lit "Topics") with
       | VList l => icon_of <$> filter is_dict l
       | _ => []
       end
  else [].

(** All icons of the body, in the order of the lists. *)
Definition icons (j : pyval) : list pyval :=
  match or_else (lookup_key j (lit "RelatedTopics")) (VList []) with
  | VList l => l ≫= icons_of_entry
  | _ => []
  end.

Definition nonempty_str (v : pyval) : bool :=
  match v with VStr s => nonempty s | _ => false end.

(** A string that holds a character other than white space. *)
Definition nonblank (v : pyval) : bool :=
  match v with VStr s => nonempty (strip s) | _ => false end.

(** The candidate by priority, [usable] telling which image field and
    which icon URL count. *)
Definition candidate (usable : pyval → bool) (j : pyval) : option pyval :=
  let img := or_else (lookup_key j (lit "Image")) (lookup_key j (lit "image")) in
  if usable img then Some img
  else match filter usable (icons j) with
       | u :: _ => Some u
       | [] =>
           let a := lookup_key j (lit "AbstractImage") in
           if truthy a then Some a else None
       end.

Definition resolved (usable : pyval → bool) (j : pyval) : res str :=
  match candidate usable j with
  | Some u => normalize_image_url u
  | None => Ok []
  end.

(** An icon is an object or nothing, its URL a string or nothing. *)
Definition icon_typed (item : pyval) : bool :=
  let icon := lookup_key item (lit "Icon") in
  (negb (truthy icon) || is_dict icon)
  && (negb (truthy (icon_of item)) || is_str (icon_of item)).

Definition entry_typed (item : pyval) : bool :=
  negb (is_dict item)
  || icon_typed item
     && match lookup_key item (lit "Topics") with
        | VList l => forallb (λ sub, negb (is_dict sub) || icon_typed sub) l
        | _ => true
        end.

(** The body is an object whose icons are typed. *)
Definition shaped (j : pyval) : bool :=
  is_dict j
  && match lookup_key j (lit "RelatedTopics") with
     | VList l => forallb entry_typed l
     | _ => true
     end.

(** *** Catalog Builder *)

(** The cells [csv.DictReader] yields: a string, or [None] for a
    missing value. *)
Definition csv_cells (row : gmap (list N) pyval) : Prop :=
  ∀ k v, row !! k = Some v → v = VNone ∨ ∃ s, v = VStr s.

(** The fragments of all rows, in the order of the scan. *)
Fixpoint scan_fragments (rows : list (gmap (list N) pyval)) : res (list str) :=
  match rows with
  | [] => Ok []
  | row :: rest =>
      parts ← split_artists (raw_of row);
      more ← scan_fragments rest;
      Ok (parts ++ more)
  end.

Definition CANDIDATE_COLUMNS : list str :=
  lit <$> ["Artist Name(s)"; "artist"; "Artist"]%string.

(** The column is absent, its value is missing, or its cell is empty. *)
Definition no_value (o : option pyval) : Prop :=
  o = None ∨ o = Some VNone ∨ o = Some (VStr []).

(** *** Further notions *)

(** An absolute http or https URL. *)
Definition is_http (r : str) : bool :=
  startswith (lit "http://") r || startswith (lit "https://") r.

(** The empty string, or an absolute http(s) URL without a query
    string. *)
Definition url_ok (r : str) : Prop := r = [] ∨ ((63%N ∉ r) ∧ is_http r = true).

(** The separators of one character. *)
Definition SINGLE_SEPS : str := [59; 44; 47; 38]%N.

(** A shaped body whose 'AbstractImage' is a string or nothing. *)
Definition typed_body (j : pyval) : bool :=
  shaped j
  && (negb (truthy (lookup_key j (lit "AbstractImage")))
      || is_str (lookup_key j (lit "AbstractImage"))).

(** What the resolver may answer: a URL as [url_ok] has it, or an
    AttributeError; [hit_ok] is the same for the scans, which may also
    find nothing. *)
Definition result_ok (x : res str) : Prop :=
  match x with Ok r => url_ok r | Raise e => e = AttributeError end.

Definition hit_ok (x : res (option str)) : Prop :=
  match x with
  | Ok (Some r) => url_ok r
  | Ok None => True
  | Raise e => e = AttributeError
  end.

(** ** Strings: relating the tests to what they decide *)


Lemma startswith_spec (p s : str) : startswith p s = true ↔ ∃ post, s = p ++ post.
Proof.
  revert s. induction p as [|x p IH]; intros [|c s]; simpl.
  - split; [eauto | done].
  - split; [eauto | done].
  - split; [done | intros [? ?]; done].
  - rewrite andb_true_iff, N.eqb_eq, IH. split.
    + intros [-> [post ->]]. eauto.
    + intros [post [= -> ->]]. eauto.
Qed.

Lemma contains_spec (w n : str) : contains w n = true ↔ infix_of w n.
Proof.
  unfold infix_of. induction n as [|c n IH].
  - simpl. rewrite orb_false_r, startswith_spec. split.
    + intros [post E]. exists [], post. done.
    + intros (pre & post & E). symmetry in E.
      apply app_eq_nil in E as [-> E]. exists post. done.
  - cbn [contains]. rewrite orb_true_iff, startswith_spec, IH. split.
    + intros [[post E] | (pre & post & E)].
      * exists [], post. done.
      * exists (c :: pre), post. by rewrite E.
    + intros ([|c' pre] & post & E).
      * left. eauto.
      * right. injection E as -> ->. eauto.
Qed.

Lemma existsb_elem {A} (f : A → bool) (l : list A) :
  existsb f l = true ↔ ∃ x, x ∈ l ∧ f x = true.
Proof.
  rewrite existsb_exists. split; intros (x & H & E); exists x; by rewrite ?list_elem_of_In in *.
Qed.

Lemma existsb_none {A} (f : A → bool) (l : list A) :
  existsb f l = false ↔ ∀ x, x ∈ l → f x = false.
Proof.
  rewrite <- not_true_iff_false, existsb_elem. split.
  - intros H x Hx. apply not_true_iff_false. eauto.
  - intros H (x & Hx & E). rewrite (H x Hx) in E. done.
Qed.

Lemma in_class_spec (cls : str) (c : char) : in_class cls c = true ↔ c ∈ cls.
Proof.
  unfold in_class. rewrite existsb_elem. split.
  - intros (x & H & E). apply N.eqb_eq in E. by subst.
  - intros H. exists c. by rewrite N.eqb_refl.
Qed.

Lemma not_in_class (cls : str) (c : char) : in_class cls c = false → c ∉ cls.
Proof. rewrite <- in_class_spec. intros E. by rewrite E. Qed.

(** ** Region Classifier *)

Lemma words_hit (words : list str) (n : str) :
  existsb (λ w, contains w n) words = true ↔ ∃ w, w ∈ words ∧ infix_of w n.
Proof. rewrite existsb_elem. by setoid_rewrite contains_spec. Qed.

Lemma scan_hints_Some (hints : list (region * list str)) (n : str) (r : region) :
  scan_hints hints n = Some r →
  ∃ pre words post, hints = pre ++ (r, words) :: post
    ∧ existsb (λ w, contains w n) words = true
    ∧ Forall (λ h, existsb (λ w, contains w n) h.2 = false) pre.
Proof.
  induction hints as [|[reg words] rest IH]; simpl; [done|].
  destruct (existsb _ words) eqn:E.
  - intros [= ->]. exists [], words, rest. auto.
  - intros H. destruct (IH H) as (pre & ws & post & -> & Hw & Hpre).
    exists ((reg, words) :: pre), ws, post. auto.
Qed.

Lemma scan_hints_None (hints : list (region * list str)) (n : str) :
  scan_hints hints n = None →
  Forall (λ h, existsb (λ w, contains w n) h.2 = false) hints.
Proof.
  induction hints as [|[reg words] rest IH]; simpl; [constructor|].
  destruct (existsb _ words) eqn:E; [done|]. auto.
Qed.

Lemma no_hit_in (hints : list (region * list str)) (n : str) r words :
  Forall (λ h, existsb (λ w, contains w n) h.2 = false) hints →
  (r, words) ∈ hints → ¬ ∃ w, w ∈ words ∧ infix_of w n.
Proof.
  intros Hall Hin Hw. rewrite Forall_forall in Hall.
  apply Hall in Hin. simpl in Hin. apply words_hit in Hw. congruence.
Qed.

Lemma keyword_hit_scan (n : str) (r : region) :
  keyword_hit n r → scan_hints REGION_HINTS n ≠ None.
Proof.
  intros (ws & w & Hin & Hw) E. apply scan_hints_None in E.
  apply (no_hit_in _ _ r ws E Hin). by exists w.
Qed.

Lemma classified_unique (n : str) r1 r2 : classified n r1 → classified n r2 → r1 = r2.
Proof.
  intros H1 H2.
  destruct H1 as [r1 Hh1 Hm1|Hn1 Ha1|Hn1 Ha1]; destruct H2 as [r2 Hh2 Hm2|Hn2 Ha2|Hn2 Ha2];
    try done; try (exfalso; eapply Hn1; eassumption); try (exfalso; eapply Hn2; eassumption).
  - destruct (lt_eq_lt_dec (rank r1) (rank r2)) as [[Hlt|Heq]|Hlt].
    + exfalso. eapply Hm2; eassumption.
    + destruct r1, r2; simpl in Heq; congruence.
    + exfalso. eapply Hm1; eassumption.
  - destruct Ha1 as (c & Hc & Hc'). exfalso. eapply Ha2; eassumption.
  - destruct Ha2 as (c & Hc & Hc'). exfalso. eapply Ha1; eassumption.
Qed.

Lemma guess_region_classified (name : str) : classified (lower name) (guess_region name).
Proof.
  unfold guess_region. destruct (scan_hints _ _) as [r|] eqn:E.
  - apply scan_hints_Some in E as (pre & words & post & Hs & Hw & Hpre).
    apply by_keyword.
    + exists words. apply words_hit in Hw as (w & ? & ?). exists w.
      rewrite Hs. split; [|done]. apply elem_of_app. right. left.
    + intros r' Hr (ws & w & Hin & Hw').
      apply (no_hit_in _ _ r' ws Hpre); [|by exists w].
      clear Hw Hw'. unfold REGION_HINTS in Hs, Hin.
      destruct pre as [|h1 [|h2 [|h3 pre]]]; simplify_eq/=;
        try (destruct post; discriminate); try lia; clear quote urlopen_json rng;
        repeat (apply elem_of_cons in Hin as [Hin|Hin]; [simplify_eq/=; try lia|]);
        try (by apply elem_of_nil in Hin); set_solver.
  - apply scan_hints_None in E.
    assert (∀ r, ¬ keyword_hit (lower name) r) as Hno.
    { intros r (ws & w & Hin & Hw). apply (no_hit_in _ _ r ws E Hin). by exists w. }
    destruct (existsb _ (lower name)) eqn:Ea.
    + apply by_accent; [done|]. apply existsb_elem in Ea as (c & ? & Ec).
      exists c. split; [done | by apply in_class_spec].
    + apply by_default; [done|]. intros c Hc Hc'.
      rewrite existsb_none in Ea. apply in_class_spec in Hc'.
      rewrite (Ea c Hc) in Hc'. done.
Qed.

(** C3 (as amended): the classifier lower-cases the name and returns the
    first region, in the order fr, uk, us, one of whose keywords occurs
    in the lower-cased name; when no keyword occurs it returns fr
    exactly when the lower-cased name holds one of the ten characters of
    [ACCENTS] (U+00E7, c with cedilla, among them), and other
    otherwise. *)
Theorem guess_region_spec (name : str) (r : region) :
  guess_region name = r ↔ classified (lower name) r.
Proof.
  split.
  - intros <-. apply guess_region_classified.
  - intros H. eapply classified_unique; [apply guess_region_classified | done].
Qed.

(** ** URL normalization *)

Lemma before_without (sep : char) (s : str) : sep ∉ before sep s.
Proof.
  induction s as [|c s IH]; simpl; [apply not_elem_of_nil|].
  destruct (N.eqb_spec c sep) as [->|Hne]; [apply not_elem_of_nil|].
  rewrite not_elem_of_cons. split; [congruence | done].
Qed.

Lemma before_id (sep : char) (s : str) : sep ∉ s → before sep s = s.
Proof.
  induction s as [|c s IH]; simpl; [done|].
  rewrite not_elem_of_cons. intros [Hne Hs].
  destruct (N.eqb_spec c sep) as [->|_]; [done|]. by rewrite IH.
Qed.

(** What [normalize_str] returns is empty or an absolute http(s) URL
    without a query string. *)
Lemma normalize_str_shape (u : str) :
  normalize_str u = []
  ∨ ((63%N ∉ normalize_str u)
     ∧ startswith (lit "http://") (normalize_str u)
        || startswith (lit "https://") (normalize_str u) = true).
Proof.
  unfold normalize_str.
  pose proof (before_without 63 u) as Hq. revert Hq.
  generalize (before 63 u). intros b Hb.
  set (b1 := if startswith (lit "//") b then lit "https:" ++ b else b).
  assert (63%N ∉ b1) as Hb1.
  { unfold b1. destruct (startswith (lit "//") b); [|done].
    rewrite not_elem_of_app. split; [|done]. by apply not_in_class. }
  clearbody b1. clear b Hb.
  set (b2 := if startswith (lit "/") b1 then lit "https://duckduckgo.com" ++ b1 else b1).
  assert (63%N ∉ b2) as Hb2.
  { unfold b2. destruct (startswith (lit "/") b1); [|done].
    rewrite not_elem_of_app. split; [|done]. by apply not_in_class. }
  clearbody b2. clear b1 Hb1.
  destruct (startswith (lit "http://") b2 || startswith (lit "https://") b2) eqn:E.
  - right. destruct (existsb _ IMAGE_EXTS); auto.
  - by left.
Qed.

Lemma normalize_str_fixed (v : str) :
  63%N ∉ v → startswith (lit "http://") v || startswith (lit "https://") v = true →
  normalize_str v = v.
Proof.
  intros Hq Hh. unfold normalize_str. rewrite (before_id _ _ Hq).
  assert (∃ t, v = 104%N :: t) as [t ->].
  { destruct v as [|c t]; [done|]. exists t. f_equal.
    apply orb_true_iff in Hh as [Hh|Hh]; cbn in Hh;
      apply andb_true_iff in Hh as [Hh _]; apply N.eqb_eq in Hh; done. }
  change (startswith (lit "//") (104%N :: t)) with false. cbv iota.
  change (startswith (lit "/") (104%N :: t)) with false. cbv iota.
  rewrite Hh. by destruct (existsb _ IMAGE_EXTS).
Qed.

(** C7: [normalize_image_url] is idempotent: on every string, applying
    it to its own result gives that result again. *)
Theorem normalize_image_url_idempotent (u : str) :
  normalize_image_url (VStr u) ≫= (λ r, normalize_image_url (VStr r))
  = normalize_image_url (VStr u).
Proof.
  assert (∀ s : str, normalize_image_url (VStr s) = Ok (normalize_str s)) as Hn.
  { by intros [|c s]. }
  rewrite !Hn. cbn. rewrite Hn. f_equal.
  destruct (normalize_str_shape u) as [E | [Hq Hh]].
  - by rewrite E.
  - by apply normalize_str_fixed.
Qed.

(** ** Reading the rows *)

Lemma read_rows_skip row rest st :
  split_artists (raw_of row) = Ok [] → read_rows (row :: rest) st = read_rows rest st.
Proof. intros E. cbn [read_rows]. by rewrite E. Qed.

(** C9: on a falsy cell (an empty string, [None], or any other falsy
    value) [split_artists] returns the empty list and raises nothing, and
    a row whose cell is falsy adds no artist. *)
Theorem split_artists_falsy (raw : pyval) :
  truthy raw = false →
  split_artists raw = Ok []
  ∧ ∀ row rest st, raw_of row = raw → read_rows (row :: rest) st = read_rows rest st.
Proof.
  intros Hf.
  assert (split_artists raw = Ok []) as E by (unfold split_artists; by rewrite Hf).
  split; [done|]. intros row rest st <-. by apply read_rows_skip.
Qed.

(** C10: when a row has none of the three candidate columns, or the
    candidates it has hold a missing or empty value, the reader takes the
    empty string for the cell: the row adds no artist and nothing is
    raised. *)
Theorem row_without_artist (row : gmap (list N) pyval) rest st :
  (∀ k, k ∈ CANDIDATE_COLUMNS → no_value (row !! k)) →
  raw_of row = VStr []
  ∧ split_artists (raw_of row) = Ok []
  ∧ read_rows (row :: rest) st = read_rows rest st.
Proof.
  intros H.
  assert (∀ k, k ∈ CANDIDATE_COLUMNS → truthy (default VNone (row !! k)) = false) as Hf.
  { intros k Hk. destruct (H k Hk) as [E|[E|E]]; by rewrite E. }
  assert (raw_of row = VStr []) as E.
  { unfold raw_of. rewrite !Hf; [done|..]; unfold CANDIDATE_COLUMNS;
      rewrite list_elem_of_fmap; eexists; (split; [reflexivity|]);
      rewrite !elem_of_cons; auto. }
  split; [done|]. rewrite E.
  split; [done|]. apply read_rows_skip. by rewrite E.
Qed.

Lemma raw_of_str (row : gmap (list N) pyval) : csv_cells row → ∃ s, raw_of row = VStr s.
Proof.
  clear quote urlopen_json rng. intros H. unfold raw_of.
  assert (∀ k, truthy (default VNone (row !! k)) = true →
               ∃ s, default VNone (row !! k) = VStr s) as Hk.
  { intros k. destruct (row !! k) as [v|] eqn:E; [|done].
    destruct (H k v E) as [->|[s ->]]; [done|]. eauto. }
  cbv zeta.
  destruct (truthy (default VNone (row !! lit "Artist Name(s)"))) eqn:E1; [by apply Hk|].
  destruct (truthy (default VNone (row !! lit "artist"))) eqn:E2; [by apply Hk|].
  destruct (truthy (default VNone (row !! lit "Artist"))) eqn:E3; [by apply Hk|].
  by exists [].
Qed.

Lemma split_artists_str (s : str) : ∃ parts, split_artists (VStr s) = Ok parts.
Proof. unfold split_artists. destruct (negb _); eauto. Qed.

Lemma scan_fragments_total rows : Forall csv_cells rows → ∃ frags, scan_fragments rows = Ok frags.
Proof.
  induction 1 as [|row rows Hrow _ [more IH]]; [by exists []|].
  destruct (raw_of_str row Hrow) as [s Es].
  destruct (split_artists_str s) as [parts Ep].
  exists (parts ++ more). cbn [scan_fragments]. by rewrite Es, Ep, IH.
Qed.

Lemma read_rows_scan rows frags st :
  scan_fragments rows = Ok frags → read_rows rows st = Ok (foldl see st frags).
Proof.
  revert frags st. induction rows as [|row rows IH]; intros frags st; cbn.
  - by intros [= <-].
  - destruct (split_artists (raw_of row)) as [parts|]; [|done]. cbn.
    destruct (scan_fragments rows) as [more|]; [|done]. cbn.
    intros [= <-]. rewrite foldl_app. by apply IH.
Qed.


(** The state of the scan after the fragments [fs]: the keys seen are
    those of [fs], and the artists are the first fragments of each key,
    in the order of [fs]. *)
Lemma see_all (fs : list str) :
  let st := foldl see ([], ∅) fs in
  (∀ k, k ∈ st.2 ↔ k ∈ lower <$> fs)
  ∧ (∀ k, k ∈ lower <$> st.1 ↔ k ∈ lower <$> fs)
  ∧ NoDup (lower <$> st.1)
  ∧ (∀ o1 a o2, st.1 = o1 ++ a :: o2 →
       ∃ f1 f2, fs = f1 ++ a :: f2 ∧ (lower a ∉ lower <$> f1) ∧ ∀ b, b ∈ o1 → b ∈ f1).
Proof.
  clear quote urlopen_json rng.
  induction fs as [|p fs IH] using rev_ind; cbn zeta.
  - cbn. repeat split; try apply NoDup_nil_2;
      try (intros Hk; by apply elem_of_nil in Hk);
      try (intros Hk; by apply not_elem_of_empty in Hk).
    intros o1 a o2 E. by destruct o1.
  - rewrite foldl_app. cbn [foldl]. cbn zeta in IH.
    destruct (foldl see ([], ∅) fs) as [out seen]. cbn [fst snd] in IH.
    destruct IH as (Hseen & Hout & Hnd & Hfirst).
    assert (∀ b, b ∈ out → b ∈ fs) as Hsub.
    { intros b Hb. apply list_elem_of_split in Hb as (o1 & o2 & ->).
      destruct (Hfirst o1 b o2 eq_refl) as (f1 & f2 & -> & _). set_solver. }
    unfold see. cbn [fst snd]. destruct (decide (lower p ∉ seen)) as [Hnew|Hold]; cbn [fst snd].
    + repeat split.
      * rewrite elem_of_union, elem_of_singleton, fmap_app, elem_of_app, Hseen. set_solver.
      * rewrite elem_of_union, elem_of_singleton, fmap_app, elem_of_app, Hseen. set_solver.
      * rewrite !fmap_app, !elem_of_app, Hout. done.
      * rewrite !fmap_app, !elem_of_app, Hout. done.
      * rewrite fmap_app. apply NoDup_app. repeat split; [done| |apply NoDup_singleton].
        intros k Hk Hk'. cbn in Hk'. apply list_elem_of_singleton in Hk' as ->.
        apply Hnew, Hseen, Hout, Hk.
      * intros o1 a o2 E. destruct o2 as [|x o2 _] using rev_ind.
        -- apply app_inj_tail in E as [-> ->]. exists fs, []. repeat split; [|done].
           intros Hin. apply Hnew, Hseen, Hin.
        -- rewrite app_comm_cons, app_assoc in E. apply app_inj_tail in E as [E ->].
           destruct (Hfirst o1 a o2 E) as (f1 & f2 & -> & Hf & Hb).
           exists f1, (f2 ++ [x]). by rewrite <- app_assoc.
    + apply dec_stable in Hold. repeat split.
      * rewrite fmap_app, elem_of_app, Hseen. auto.
      * rewrite fmap_app, elem_of_app, Hseen. intros [?|Hk]; [done|].
        cbn in Hk. apply list_elem_of_singleton in Hk as ->. by apply Hseen.
      * rewrite fmap_app, elem_of_app, Hout. auto.
      * rewrite fmap_app, elem_of_app, Hout. intros [?|Hk]; [done|].
        cbn in Hk. apply list_elem_of_singleton in Hk as ->. by apply Hseen.
      * done.
      * intros o1 a o2 E. destruct (Hfirst o1 a o2 E) as (f1 & f2 & -> & Hf & Hb).
        exists f1, (f2 ++ [p]). by rewrite <- app_assoc.
Qed.



(** ** Image Resolver *)

Lemma get_dict (v : pyval) (k : str) : is_dict v = true → get v k = Ok (lookup_key v k).
Proof. by destruct v. Qed.

Lemma get_or_dict (v : pyval) (k1 k2 : str) :
  is_dict v = true →
  get_or v k1 k2 = Ok (or_else (lookup_key v k1) (lookup_key v k2)).
Proof.
  intros Hv. unfold get_or, or_else. rewrite !get_dict by done. cbn.
  by destruct (truthy (lookup_key v k1)).
Qed.

Lemma normalize_nonblank (u : pyval) :
  nonblank u = true → ∃ s, u = VStr s ∧ normalize_image_url u = Ok (normalize_str s).
Proof.
  destruct u as [| | | |s| |]; try done. intros Hs. exists s. split; [done|].
  by destruct s.
Qed.

Lemma filter_usable_cons (usable : pyval → bool) (u : pyval) (l : list pyval) :
  filter usable (u :: l) = if usable u then u :: filter usable l else filter usable l.
Proof.
  destruct (usable u) eqn:E.
  - apply filter_cons_True. by rewrite E.
  - apply filter_cons_False. rewrite E. cbn. tauto.
Qed.

(** The icon test returns at an entry exactly when its icon URL is not
    blank. *)
Lemma icon_url_typed (item : pyval) :
  is_dict item = true → icon_typed item = true →
  icon_url item
  = if nonblank (icon_of item) then Some <$> normalize_image_url (icon_of item) else Ok None.
Proof.
  clear quote urlopen_json rng.
  intros Hd Ht. apply andb_true_iff in Ht as [Hicon Hurl].
  unfold icon_url. rewrite get_dict by done. cbn [mbind res_bind].
  assert (get_or (if truthy (lookup_key item (lit "Icon")) then lookup_key item (lit "Icon")
                  else VDict ∅) (lit "URL") (lit "url") = Ok (icon_of item)) as ->.
  { unfold icon_of. cbv zeta. destruct (truthy (lookup_key item (lit "Icon"))) eqn:Et.
    - apply get_or_dict. exact Hicon.
    - rewrite get_or_dict by done.
      destruct (lookup_key item (lit "Icon")) as [| | | | | |d]; try done.
      cbn in Et. apply negb_false_iff, bool_decide_eq_true in Et. by subst. }
  cbn [mbind res_bind]. destruct (truthy (icon_of item)) eqn:Et.
  - destruct (icon_of item) as [| | | |s| |]; try done.
  - destruct (icon_of item) as [| | | |s| |]; try done. by destruct s.
Qed.

Lemma scan_topics_first (l : list pyval) :
  forallb (λ sub, negb (is_dict sub) || icon_typed sub) l = true →
  scan_topics l
  = match filter nonblank (icon_of <$> filter is_dict l) with
    | u :: _ => Some <$> normalize_image_url u
    | [] => Ok None
    end.
Proof.
  induction l as [|sub l IH]; [done|]. cbn [scan_topics forallb].
  rewrite andb_true_iff. intros [Hsub Hl].
  rewrite (filter_usable_cons is_dict). destruct (is_dict sub) eqn:Ed.
  - rewrite fmap_cons, filter_usable_cons.
    rewrite icon_url_typed by done.
    destruct (nonblank (icon_of sub)) eqn:En.
    + destruct (normalize_nonblank _ En) as (s & _ & ->). done.
    + cbn. by apply IH.
  - cbn. by apply IH.
Qed.

Lemma scan_related_first (l : list pyval) :
  forallb entry_typed l = true →
  scan_related l
  = match filter nonblank (l ≫= icons_of_entry) with
    | u :: _ => Some <$> normalize_image_url u
    | [] => Ok None
    end.
Proof.
  induction l as [|item l IH]; [done|]. cbn [scan_related forallb].
  rewrite andb_true_iff. intros [Hitem Hl]. specialize (IH Hl).
  rewrite bind_cons, filter_app. unfold icons_of_entry at 1.
  unfold entry_typed in Hitem.
  destruct (is_dict item) eqn:Ed.
  - apply andb_true_iff in Hitem as [Hicon Htopics].
    rewrite icon_url_typed by done.
    rewrite filter_usable_cons.
    destruct (nonblank (icon_of item)) eqn:En.
    + destruct (normalize_nonblank _ En) as (s & _ & E). cbn [app]. by rewrite E.
    + cbn [mbind res_bind]. rewrite get_dict by done. cbn [mbind res_bind].
      destruct (lookup_key item (lit "Topics")) as [| | | | |ts|] eqn:Et;
        cbn [mbind res_bind app]; try apply IH.
      assert (scan_topics ts = (if truthy (VList ts) then scan_topics ts else Ok None)) as <-.
      { by destruct ts. }
      rewrite scan_topics_first by done.
      destruct (filter nonblank (icon_of <$> filter is_dict ts)) as [|u us] eqn:Ef.
      * cbn. apply IH.
      * assert (nonblank u = true) as En'.
        { assert (u ∈ filter nonblank (icon_of <$> filter is_dict ts)) as Hu
            by (rewrite Ef; left).
          apply list_elem_of_filter in Hu as [Hu _]. by apply Is_true_true. }
        destruct (normalize_nonblank _ En') as (s & _ & E). cbn [app]. by rewrite E.
  - cbn. apply IH.
Qed.

(** The resolver on a shaped body: the candidate chosen by priority,
    normalized. *)
Lemma extract_image_resolved (j : pyval) :
  shaped j = true → extract_image j = resolved nonblank j.
Proof.
  intros Hs. apply andb_true_iff in Hs as [Hd Hrt]. unfold extract_image, resolved, candidate. cbv zeta.
  rewrite get_or_dict by done. cbn [mbind res_bind].
  set (img := or_else (lookup_key j (lit "Image")) (lookup_key j (lit "image"))).
  assert (match img with
          | VStr s => if truthy img && nonempty (strip s)
                      then Some <$> normalize_image_url img else Ok None
          | _ => Ok None
          end = if nonblank img then Some <$> normalize_image_url img else Ok None) as ->.
  { destruct img as [| | | |s| |]; try done. cbn. destruct s; [done|].
    by destruct (nonempty (strip _)). }
  destruct (nonblank img) eqn:En.
  { destruct (normalize_nonblank _ En) as (s & _ & ->). done. }
  cbn [mbind res_bind]. rewrite !get_dict by done. cbn [mbind res_bind].
  unfold icons, or_else.
  destruct (truthy (lookup_key j (lit "RelatedTopics"))) eqn:Et.
  - destruct (lookup_key j (lit "RelatedTopics")) as [| | | | |l|] eqn:El; try done;
      try (cbn [mbind res_bind]; rewrite filter_nil;
           by destruct (truthy (lookup_key j (lit "AbstractImage")))).
    rewrite scan_related_first by done.
    destruct (filter nonblank (l ≫= icons_of_entry)) as [|u us] eqn:Ef.
    { cbn [mbind res_bind]. by destruct (truthy (lookup_key j (lit "AbstractImage"))). }
    assert (nonblank u = true) as En'.
    { assert (u ∈ filter nonblank (l ≫= icons_of_entry)) as Hu by (rewrite Ef; left).
      apply list_elem_of_filter in Hu as [Hu _]. by apply Is_true_true. }
    destruct (normalize_nonblank _ En') as (s & _ & E). by rewrite E.
  - cbn [mbind res_bind list_bind scan_related]. rewrite filter_nil. cbn [mbind res_bind].
    by destruct (truthy (lookup_key j (lit "AbstractImage"))).
Qed.

(** C5 (as amended): on a body that is an object with typed icons, the
    resolver takes as candidate, by priority, (1) the top-level 'Image'
    field, or 'image' when 'Image' is falsy, if that value is a string
    holding a character other than white space; (2) the first icon URL
    holding a character other than white space, scanning the related
    topics in the order of the list, for each entry its own icon ('URL',
    else 'url', of 'Icon') and then the icons of its 'Topics'; (3) the
    top-level 'AbstractImage' when truthy; (4) nothing, and then it
    returns the empty string.  The candidate is returned normalized. *)
Theorem extract_image_priority (j : pyval) :
  shaped j = true →
  extract_image j
  = match candidate nonblank j with
    | Some u => normalize_image_url u
    | None => Ok []
    end.
Proof. apply extract_image_resolved. Qed.


(** ** Catalog Builder *)

Lemma build_entry_image (i : nat) (artist : str) :
  build_entry i artist
  = img ← ddg_search_image i artist;
    Ok (Entry artist (lit "https://open.spotify.com/search/artist%3A" ++ quote artist)
          (guess_region artist)
          (if nonempty img then img else PLACEHOLDER)
          (default [] (RATINGS !! (rng i mod length RATINGS)))).
Proof.
  unfold build_entry. destruct (ddg_search_image i artist) as [[|c img]|]; done.
Qed.

Lemma build_all_images (i : nat) (artists : list str) out :
  build_all i artists = Ok out → Forall (λ e, image e ≠ []) out.
Proof.
  revert i out. induction artists as [|a artists IH]; intros i out; cbn [build_all].
  - intros [= <-]. constructor.
  - rewrite build_entry_image. destruct (ddg_search_image i a) as [img|]; [|done].
    cbn [mbind res_bind]. destruct (build_all (S i) artists) as [more|] eqn:E; [|done].
    cbn [mbind res_bind]. intros [= <-]. constructor; [|by eapply IH].
    cbn. by destruct img.
Qed.

Lemma build_all_offline (i : nat) (artists : list str) :
  (∀ i artist, urlopen_json i (query_url artist) = None) →
  ∃ out, build_all i artists = Ok out ∧ Forall (λ e, image e = PLACEHOLDER) out.
Proof.
  intros Hoff. revert i. induction artists as [|a artists IH]; intros i; cbn [build_all].
  - exists []. split; [done | constructor].
  - destruct (IH (S i)) as (more & -> & Hmore).
    rewrite build_entry_image. unfold ddg_search_image. rewrite Hoff. cbn.
    eexists. split; [reflexivity|]. by constructor.
Qed.

(** On a failed request, and on an object body with typed icons that
    holds no image field, the resolver returns the empty string; the
    builder then puts the placeholder, so that the [image] of every record
    of a list [main] builds is a non-empty string.  A run whose requests
    all fail ends with the placeholder in every record. *)
Theorem image_never_empty :
  (∀ i artist, urlopen_json i (query_url artist) = None → ddg_search_image i artist = Ok [])
  ∧ (∀ i artist j,
       urlopen_json i (query_url artist) = Some j → shaped j = true →
       candidate nonblank j = None → ddg_search_image i artist = Ok [])
  ∧ (∀ i artist e,
       build_entry i artist = Ok e →
       image e ≠ [] ∧ (ddg_search_image i artist = Ok [] → image e = PLACEHOLDER))
  ∧ (∀ file out, main file = Ok out → Forall (λ e, image e ≠ []) out)
  ∧ (∀ rows,
       Forall csv_cells rows → (∀ i artist, urlopen_json i (query_url artist) = None) →
       ∃ out, main (Some rows) = Ok out ∧ Forall (λ e, image e = PLACEHOLDER) out).
Proof.
  split; [|split; [|split; [|split]]].
  - intros i artist H. unfold ddg_search_image. by rewrite H.
  - intros i artist j H Hs Hc. unfold ddg_search_image. rewrite H.
    rewrite extract_image_resolved by done. unfold resolved. by rewrite Hc.
  - intros i artist e. rewrite build_entry_image.
    destruct (ddg_search_image i artist) as [img|]; [|done]. cbn.
    intros [= <-]. cbn. split; [by destruct img|]. by intros [= ->].
  - intros file out. unfold main. destruct (read_csv file) as [artists|]; [|done].
    cbn. apply build_all_images.
  - intros rows Hrows Hoff. unfold main.
    destruct (scan_fragments_total rows Hrows) as [frags Hf].
    unfold read_csv. rewrite (read_rows_scan rows frags ([], ∅) Hf). cbn.
    by apply build_all_offline.
Qed.

(** ** Name Normalizer *)

Lemma re_sub_aux_drop (m : str → option nat) (k : nat) (s : str) :
  re_sub_aux m k s = re_sub_aux m 0 (drop k s).
Proof.
  revert k. induction s as [|c t IH]; intros [|k]; try done. cbn. apply IH.
Qed.

Lemma re_sub_cons (m : str → option nat) (c : char) (t : str) :
  re_sub m (c :: t)
  = match m (c :: t) with
    | Some (S k) => re_sub m (drop k t)
    | _ => c :: re_sub m t
    end.
Proof.
  unfold re_sub. cbn. destruct (m (c :: t)) as [[|k]|]; try done. apply re_sub_aux_drop.
Qed.

Lemma find_index_None (P : char → bool) (s : str) :
  find_index P s = None ↔ existsb P s = false.
Proof.
  induction s as [|c s IH]; [done|]. cbn. destruct (P c); [done|].
  cbn. rewrite <- IH. by destruct (find_index P s).
Qed.

Lemma match_bracket_head (c : char) (t : str) : c ≠ 91%N → match_bracket (c :: t) = None.
Proof. intros Hc. unfold match_bracket. by destruct (N.eqb_spec c 91). Qed.

Lemma match_bracket_pos (s : str) : match_bracket s ≠ Some 0.
Proof.
  destruct s as [|c t]; [done|]. unfold match_bracket.
  destruct (c =? 91)%N; [|done]. destruct (find_index _ t) as [i|]; [|done]. cbn.
  destruct (_ =? 93)%N; [|done]. intros [= H]. lia.
Qed.

Lemma bracket_closes (t : str) : match_bracket (91%N :: t) = None ↔ closes t = false.
Proof.
  unfold match_bracket. change (91 =? 91)%N with true. cbv iota.
  assert (∀ f : nat → nat,
            (find_index (λ c, (c =? 93)%N || (c =? 10)%N) t
             ≫= λ i, if (default 0%N (t !! i) =? 93)%N then Some (f i) else None) = None
            ↔ closes t = false) as H; [|apply H].
  induction t as [|c t IH]; intros f; [done|]. cbn [find_index closes].
  destruct (N.eqb_spec c 93) as [->|H93]; [done|]. cbn [orb].
  destruct (N.eqb_spec c 10) as [->|H10]; [done|].
  rewrite <- (IH (λ i, f (S i))).
  destruct (find_index _ t) as [i|]; done.
Qed.

Lemma match_feat_head (c : char) (t : str) : c ≠ 40%N → match_feat (c :: t) = None.
Proof.
  intros Hc. unfold match_feat. eval_lit. cbn [lit_ci]. unfold ci_eq at 1.
  by destruct (N.eqb_spec c 40).
Qed.

Lemma match_feat_pos (s : str) : match_feat s ≠ Some 0.
Proof.
  unfold match_feat. destruct (lit_ci _ s); [|done].
  destruct (find_index _ _) as [i|]; [|done]. cbn. intros [= H].
Qed.

Lemma opens_split (p t : str) :
  opens p t = lit_ci p t && existsb (N.eqb 41) (drop (length p) t).
Proof.
  revert t. induction p as [|x p IH]; intros [|c t]; cbn; try done.
  by rewrite IH, andb_assoc.
Qed.

Lemma feat_opens (s : str) : match_feat s = None ↔ opens (lit "(feat") s = false.
Proof.
  rewrite opens_split. unfold match_feat. destruct (lit_ci _ s); [|done].
  change (length (lit "(feat")) with 5. cbn [andb].
  rewrite <- find_index_None. by destruct (find_index _ _).
Qed.

Lemma feat_opens_paren (t : str) :
  match_feat (40%N :: t) = None ↔ opens (lit "feat") t = false.
Proof. by rewrite feat_opens. Qed.

(** After an opening bracket that finds no closing bracket on its
    line, the removal of the bracketed texts changes nothing up to that
    line's end. *)
Lemma closes_re_sub (t : str) :
  closes t = false → closes (re_sub match_bracket t) = false.
Proof.
  induction t as [|c t IH]; [done|]. cbn [closes].
  destruct (N.eqb_spec c 93) as [->|H93]; [done|].
  destruct (N.eqb_spec c 10) as [->|H10].
  - intros _. by rewrite re_sub_cons.
  - intros Ht. rewrite re_sub_cons.
    assert (match_bracket (c :: t) = None) as ->.
    { destruct (N.eq_dec c 91%N) as [->|]; [by apply bracket_closes|by apply match_bracket_head]. }
    cbn [closes]. destruct (N.eqb_spec c 93); [done|]. destruct (N.eqb_spec c 10); [done|].
    by apply IH.
Qed.

Lemma no_match_cons (m : str → option nat) (c : char) (s : str) :
  m (c :: s) = None → no_match m s → no_match m (c :: s).
Proof.
  intros Hc Hs [|c' pre] post E; cbn in E.
  - by subst.
  - injection E as -> ->. by eapply Hs.
Qed.

Lemma no_match_nil (m : str → option nat) : m [] = None → no_match m [].
Proof. intros H pre post E. symmetry in E. by apply app_eq_nil in E as [-> ->]. Qed.

Lemma no_match_bracket (s : str) : no_match match_bracket (re_sub match_bracket s).
Proof.
  remember (length s) as n eqn:En. revert s En.
  induction n as [n IH] using lt_wf_ind. intros [|c t] ->.
  - by apply no_match_nil.
  - rewrite re_sub_cons. destruct (match_bracket (c :: t)) as [[|k]|] eqn:Em.
    + by apply match_bracket_pos in Em.
    + apply (IH (length (drop k t))); [|done]. rewrite length_drop. cbn. lia.
    + apply no_match_cons; [|apply (IH (length t)); [cbn; lia|done]].
      destruct (N.eq_dec c 91%N) as [->|]; [|by apply match_bracket_head].
      apply bracket_closes, closes_re_sub, bracket_closes, Em.
Qed.

Lemma flat_inside_outside (s : str) : flat true s = true → flat false s = true.
Proof.
  induction s as [|c s IH]; [done|]. cbn [flat].
  destruct (N.eqb_spec c 41) as [->|H41]; [done|].
  destruct (N.eqb_spec c 40) as [->|H40]; [done|]. cbn [orb negb].
  destruct (c =? 91)%N; [done|]. cbn. apply IH.
Qed.

Lemma flat_tail (b : bool) (c : char) (s : str) : flat b (c :: s) = true → flat false s = true.
Proof.
  destruct b; cbn [flat].
  - destruct (c =? 41)%N; [done|]. rewrite andb_true_iff. intros [_ H].
    by apply flat_inside_outside.
  - destruct (c =? 40)%N; [apply flat_inside_outside|done].
Qed.

Lemma flat_drop (b : bool) (k : nat) (s : str) : flat b s = true → flat false (drop k s) = true.
Proof.
  revert b s. induction k as [|k IH]; intros b s H.
  - rewrite drop_0. destruct b; [by apply flat_inside_outside|done].
  - destruct s as [|c s]; [done|]. cbn [drop]. apply (IH false). by eapply flat_tail.
Qed.

(** Inside an open parenthesis of a flat text, a removal that starts
    only at an opening parenthesis or bracket removes nothing before the
    parenthesis is closed. *)
Lemma opens_re_sub (m : str → option nat) (p t : str) :
  (∀ c u, c ≠ 40%N → c ≠ 91%N → m (c :: u) = None) →
  (∀ x, x ∈ p → ci_eq x 41 = false) →
  flat true t = true →
  opens p (re_sub m t) = opens p t.
Proof.
  intros Hm. revert p. induction t as [|c t IH]; intros p Hp; [done|]. cbn [flat].
  intros Hf.
  assert (c ≠ 40%N ∧ c ≠ 91%N) as [H40 H91].
  { destruct (N.eqb_spec c 41) as [->|_]; [done|].
    apply andb_true_iff in Hf as [Hf _]. apply negb_true_iff, orb_false_iff in Hf as [? ?].
    split; by apply N.eqb_neq. }
  rewrite re_sub_cons, (Hm c t H40 H91).
  destruct p as [|x p]; cbn [opens existsb].
  - destruct (N.eqb_spec 41 c) as [<-|H41]; [done|]. cbn [orb].
    apply (IH []); [done|]. destruct (N.eqb_spec c 41); [congruence|].
    by apply andb_true_iff in Hf as [_ Hf].
  - destruct (ci_eq x c) eqn:Ex; [|done]. cbn [andb].
    apply IH; [intros y Hy; apply Hp; by right|].
    destruct (N.eqb_spec c 41) as [->|_].
    + rewrite Hp in Ex; [done|by left].
    + by apply andb_true_iff in Hf as [_ Hf].
Qed.

(** A removal pass over a flat text leaves no parenthesis that opens
    with feat, when every such parenthesis of the text is among the
    matches of the pass. *)
Lemma no_match_feat_pass (m : str → option nat) (s : str) :
  (∀ c u, c ≠ 40%N → c ≠ 91%N → m (c :: u) = None) →
  (∀ u, m u ≠ Some 0) →
  (∀ pre post, s = pre ++ post → m post = None → match_feat post = None) →
  flat false s = true →
  no_match match_feat (re_sub m s).
Proof.
  intros Hm Hpos. remember (length s) as n eqn:En. revert s En.
  induction n as [n IH] using lt_wf_ind. intros [|c t] -> Hcov Hf.
  - by apply no_match_nil.
  - rewrite re_sub_cons. destruct (m (c :: t)) as [[|k]|] eqn:Em.
    + by apply Hpos in Em.
    + apply (IH (length (drop k t))); [rewrite length_drop; cbn; lia|done| |].
      * intros pre post E. apply (Hcov (c :: take k t ++ pre)).
        by rewrite <- app_comm_cons, <- app_assoc, <- E, take_drop.
      * by apply (flat_drop false (S k) (c :: t)).
    + apply no_match_cons.
      * destruct (N.eq_dec c 40%N) as [->|]; [|by apply match_feat_head].
        apply feat_opens_paren. rewrite opens_re_sub; [|done| |done].
        -- apply feat_opens_paren. by apply (Hcov []).
        -- intros x Hx. revert Hx. eval_lit. rewrite !elem_of_cons, elem_of_nil.
           intros [->|[->|[->|[->|[]]]]]; done.
      * apply (IH (length t)); [cbn; lia|done| |by eapply flat_tail].
        intros pre post E. apply (Hcov (c :: pre)). by rewrite E.
Qed.

(** Removing the feat parentheses keeps a text flat. *)
Lemma flat_re_sub_feat (b : bool) (s : str) :
  flat b s = true → flat b (re_sub match_feat s) = true.
Proof.
  remember (length s) as n eqn:En. revert b s En.
  induction n as [n IH] using lt_wf_ind. intros b [|c t] -> Hf; [done|].
  rewrite re_sub_cons. destruct b.
  - assert (c ≠ 40%N) as H40.
    { intros ->. revert Hf. cbn [flat]. done. }
    rewrite (match_feat_head c t H40). revert Hf. cbn [flat].
    destruct (c =? 41)%N.
    + apply (IH (length t)); [cbn; lia|done].
    + rewrite !andb_true_iff. intros [? Hf]. split; [done|].
      by apply (IH (length t)); [cbn; lia|..].
  - destruct (match_feat (c :: t)) as [[|k]|] eqn:Em.
    + cbn [flat]. apply (IH (length t)); [cbn; lia|done|]. exact Hf.
    + apply (IH (length (drop k t))); [rewrite length_drop; cbn; lia|done|].
      by apply (flat_drop false (S k) (c :: t)).
    + cbn [flat]. apply (IH (length t)); [cbn; lia|done|]. exact Hf.
Qed.

Lemma lstrip_suffix (s : str) : ∃ a, s = a ++ lstrip s.
Proof.
  induction s as [|c s [a IH]]; [by exists []|]. cbn.
  destruct (is_space c); [|by exists []]. exists (c :: a). by rewrite IH at 1.
Qed.

Lemma lstrip_head (s : str) (c : char) : head (lstrip s) = Some c → is_space c = false.
Proof.
  induction s as [|x s IH]; [done|]. cbn. destruct (is_space x) eqn:E; [done|].
  by intros [= <-].
Qed.

Lemma last_rev (s : str) : last (rev s) = head s.
Proof. destruct s as [|c s]; [done|]. cbn. by rewrite last_snoc. Qed.

Lemma head_rev (s : str) : head (rev s) = last s.
Proof.
  induction s as [|c s _] using rev_ind; [done|]. by rewrite rev_unit, last_snoc.
Qed.

Lemma strip_infix (s : str) : ∃ a b, s = a ++ strip s ++ b.
Proof.
  unfold strip, rstrip. destruct (lstrip_suffix s) as [a Ha].
  destruct (lstrip_suffix (rev (lstrip s))) as [b Hb].
  exists a, (rev b). rewrite <- rev_app_distr, <- Hb, rev_involutive. done.
Qed.

Lemma trimmed_strip (s : str) : trimmed (strip s).
Proof.
  unfold trimmed, strip, rstrip. intros c. rewrite head_rev, last_rev. intros [H|H].
  - destruct (lstrip_suffix (rev (lstrip s))) as [b Hb].
    apply (lstrip_head s). rewrite <- last_rev, Hb, last_app, H. done.
  - by apply lstrip_head in H.
Qed.

Lemma no_match_infix (m : str → option nat) (a s b : str) :
  (∀ post b, m (post ++ b) = None → m post = None) →
  no_match m (a ++ s ++ b) → no_match m s.
Proof.
  intros Hmono H pre post ->. apply (Hmono post b), (H (a ++ pre)).
  by rewrite <- !app_assoc.
Qed.

Lemma closes_app (t b : str) : closes t = true → closes (t ++ b) = true.
Proof.
  induction t as [|c t IH]; [done|]. cbn.
  destruct (c =? 93)%N; [done|]. destruct (c =? 10)%N; [done|]. apply IH.
Qed.

Lemma opens_app (p t b : str) : opens p t = true → opens p (t ++ b) = true.
Proof.
  revert t. induction p as [|x p IH]; intros t; cbn.
  - rewrite !existsb_elem. intros (c & Hc & E). exists c. split; [|done].
    apply elem_of_app. by left.
  - destruct t as [|c t]; [done|]. cbn. rewrite !andb_true_iff. intros [? ?]. auto.
Qed.

Lemma match_bracket_mono (post b : str) :
  match_bracket (post ++ b) = None → match_bracket post = None.
Proof.
  destruct post as [|c t]; [done|]. rewrite <- app_comm_cons.
  destruct (N.eq_dec c 91%N) as [->|]; [|intros _; by apply match_bracket_head].
  rewrite !bracket_closes. intros H. apply not_true_iff_false. intros H'.
  apply (closes_app _ b) in H'. congruence.
Qed.

Lemma match_feat_mono (post b : str) :
  match_feat (post ++ b) = None → match_feat post = None.
Proof.
  rewrite !feat_opens. intros H. apply not_true_iff_false. intros H'.
  apply (opens_app _ _ b) in H'. congruence.
Qed.

Lemma ci_char_eq (x c : char) : ci_char x c → ci_eq x c = true.
Proof.
  unfold ci_eq. intros [->|(H1 & H2 & ->)].
  - by rewrite N.eqb_refl.
  - apply N.leb_le in H1, H2. by rewrite H1, H2, N.eqb_refl, orb_true_r.
Qed.

Lemma opens_variant (p kw w post : str) :
  ci_variant p kw → opens p (kw ++ w ++ 41%N :: post) = true.
Proof.
  induction 1 as [|x c p kw Hc _ IH]; cbn.
  - apply existsb_elem. exists 41%N. split; [|done]. apply elem_of_app. right. left.
  - by rewrite (ci_char_eq x c Hc), IH.
Qed.

Lemma closes_line (w post : str) : 10%N ∉ w → closes (w ++ 93%N :: post) = true.
Proof.
  induction w as [|c w IH]; [done|]. rewrite not_elem_of_cons. intros [Hc Hw]. cbn.
  destruct (c =? 93)%N; [done|]. destruct (N.eqb_spec c 10); [congruence|]. by apply IH.
Qed.

Lemma has_feat_match (s : str) : has_feat s → ¬ no_match match_feat s.
Proof.
  intros (pre & kw & w & post & -> & Hkw) H.
  specialize (H pre _ eq_refl). apply feat_opens_paren in H.
  by rewrite opens_variant in H.
Qed.

Lemma has_bracketed_match (s : str) : has_bracketed_line s → ¬ no_match match_bracket s.
Proof.
  intros (pre & w & post & -> & Hw) H.
  specialize (H pre _ eq_refl). apply bracket_closes in H.
  by rewrite closes_line in H.
Qed.

(** C4 (as amended): for every raw name, the cleaned name has no white
    space at its ends and holds no text in brackets within one line; and
    when no parenthesis or bracket opens inside an open parenthesis of the
    raw name, the cleaned name holds no parenthesis that opens with feat
    (in any case). *)
Theorem clean_name_spec (n : str) :
  trimmed (clean_name n)
  ∧ ¬ has_bracketed_line (clean_name n)
  ∧ (flat false n = true → ¬ has_feat (clean_name n)).
Proof.
  unfold clean_name. cbv zeta.
  destruct (strip_infix (re_sub match_bracket (re_sub match_feat n))) as (a & b & E).
  split; [apply trimmed_strip|]. split.
  - intros H. apply has_bracketed_match in H. apply H.
    apply (no_match_infix _ a _ b match_bracket_mono). rewrite <- E.
    apply no_match_bracket.
  - intros Hf H. apply has_feat_match in H. apply H.
    apply (no_match_infix _ a _ b match_feat_mono). rewrite <- E.
    assert (no_match match_feat (re_sub match_feat n)) as H1.
    { apply no_match_feat_pass; [|apply match_feat_pos|done..].
      intros c u Hc _. by apply match_feat_head. }
    apply no_match_feat_pass.
    + intros c u _ Hc. by apply match_bracket_head.
    + apply match_bracket_pos.
    + intros pre post Es _. by apply (H1 pre).
    + by apply flat_re_sub_feat.
Qed.

(** ** Splitter *)


Lemma re_split_aux_drop (m : str → option nat) (k : nat) (cur s : str) :
  re_split_aux m k cur s = re_split_aux m 0 cur (drop k s).
Proof.
  revert k. induction s as [|c t IH]; intros [|k]; try done. cbn. apply IH.
Qed.

Lemma re_split_cons (m : str → option nat) (cur : str) (c : char) (t : str) :
  re_split_aux m 0 cur (c :: t)
  = match m (c :: t) with
    | Some (S k) => cur :: re_split_aux m 0 [] (drop k t)
    | _ => re_split_aux m 0 (cur ++ [c]) t
    end.
Proof.
  cbn. destruct (m (c :: t)) as [[|k]|]; try done. f_equal. apply re_split_aux_drop.
Qed.

(** A stretch of text in which no match starts goes to the current
    piece. *)
Lemma re_split_fragment (m : str → option nat) (cur f rest : str) :
  (∀ pre post, f = pre ++ post → post ≠ [] → m (post ++ rest) = None) →
  re_split_aux m 0 cur (f ++ rest) = re_split_aux m 0 (cur ++ f) rest.
Proof.
  revert cur. induction f as [|c f IH]; intros cur H.
  - by rewrite app_nil_r.
  - rewrite <- app_comm_cons, re_split_cons.
    assert (m (c :: f ++ rest) = None) as -> by (by apply (H [] (c :: f))).
    rewrite IH; [by rewrite <- app_assoc|].
    intros pre post -> Hpost. by apply (H (c :: pre)).
Qed.

(** A match closes the current piece. *)
Lemma re_split_separator (m : str → option nat) (cur sep rest : str) :
  sep ≠ [] → m (sep ++ rest) = Some (length sep) →
  re_split_aux m 0 cur (sep ++ rest) = cur :: re_split_aux m 0 [] rest.
Proof.
  destruct sep as [|c sep]; [done|]. intros _ H.
  rewrite <- app_comm_cons in *. rewrite re_split_cons, H. cbn [length].
  by rewrite drop_app_length.
Qed.

Lemma ci_eq_char (x c : char) : ci_eq x c = true → ci_char x c.
Proof.
  unfold ci_eq, ci_char. rewrite orb_true_iff, !andb_true_iff, !N.eqb_eq, !N.leb_le.
  tauto.
Qed.

Lemma lit_ci_split (p x : str) :
  lit_ci p x = true → ∃ s rest, x = s ++ rest ∧ ci_variant p s.
Proof.
  revert x. induction p as [|a p IH]; intros x; cbn.
  - intros _. exists [], x. split; [done | constructor].
  - destruct x as [|c x]; [done|]. rewrite andb_true_iff. intros [Hc Hp].
    destruct (IH x Hp) as (s & rest & -> & Hs). exists (c :: s), rest.
    split; [done|]. constructor; [by apply ci_eq_char | done].
Qed.

Lemma lit_ci_variant (p s rest : str) : ci_variant p s → lit_ci p (s ++ rest) = true.
Proof.
  induction 1 as [|x c p s Hc _ IH]; [done|]. cbn. by rewrite (ci_char_eq x c Hc), IH.
Qed.

Lemma is_separator_cases (s : str) :
  is_separator s →
  ci_variant (lit ";") s ∨ ci_variant (lit ",") s ∨ ci_variant (lit "/") s
  ∨ ci_variant (lit " feat.") s ∨ ci_variant (lit " ft. ") s
  ∨ ci_variant (lit "&") s ∨ ci_variant (lit " and ") s.
Proof.
  clear lower quote urlopen_json rng.
  intros (p & Hp & Hs). unfold SEPARATORS in Hp. cbn [fmap list_fmap] in Hp.
  rewrite !elem_of_cons, elem_of_nil in Hp.
  destruct Hp as [->|[->|[->|[->|[->|[->|[->|[]]]]]]]]; tauto.
Qed.

(** Brings a variant of a literal to its characters. *)
Ltac variant_chars H :=
  eval_lit_in H; unfold ci_variant in H;
  repeat (apply Forall2_cons_inv_l in H as (? & ? & ? & H & ->));
  apply Forall2_nil_inv_l in H as ->;
  repeat match goal with
         | Hc : ci_char _ _ |- _ => destruct Hc as [->|(? & ? & ->)]; try lia
         end.

Lemma is_separator_match (s rest : str) :
  is_separator s → s ≠ [] ∧ match_sep (s ++ rest) = Some (length s).
Proof.
  clear lower quote urlopen_json rng.
  intros Hs. apply is_separator_cases in Hs.
  destruct Hs as [H|[H|[H|[H|[H|[H|H]]]]]]; variant_chars H; by split.
Qed.

Lemma is_separator_head (s : str) : is_separator s → ∃ c s', s = c :: s' ∧ c ∈ SEP_HEADS.
Proof.
  clear lower quote urlopen_json rng.
  intros Hs. apply is_separator_cases in Hs.
  destruct Hs as [H|[H|[H|[H|[H|[H|H]]]]]]; variant_chars H;
    eexists _, _; (split; [reflexivity|]); unfold SEP_HEADS; rewrite !elem_of_cons; tauto.
Qed.

Lemma match_sep_some (c : char) (t : str) :
  match_sep (c :: t) ≠ None
  ↔ in_class (lit ";,/") c || lit_ci (lit " feat.") (c :: t) || lit_ci (lit " ft. ") (c :: t)
    || (c =? 38)%N || lit_ci (lit " and ") (c :: t) = true.
Proof.
  unfold match_sep. destruct (in_class _ c); [done|].
  destruct (lit_ci (lit " feat.") _); [done|]. destruct (lit_ci (lit " ft. ") _); [done|].
  destruct (c =? 38)%N; [done|]. by destruct (lit_ci (lit " and ") _).
Qed.

Lemma match_sep_is_separator (x : str) :
  match_sep x ≠ None → ∃ s rest, is_separator s ∧ x = s ++ rest.
Proof.
  clear lower quote urlopen_json rng.
  destruct x as [|c t]; [done|]. rewrite match_sep_some, !orb_true_iff.
  assert (∀ p, p ∈ SEPARATORS → lit_ci p (c :: t) = true →
               ∃ s rest, is_separator s ∧ c :: t = s ++ rest) as Hlit.
  { intros p Hp H. apply lit_ci_split in H as (s & rest & E & Hs).
    exists s, rest. split; [by exists p | done]. }
  assert (∀ p, p ∈ SEPARATORS → p = [c] → ∃ s rest, is_separator s ∧ c :: t = s ++ rest)
    as Hone.
  { intros p Hp ->. exists [c], t. split; [|done]. exists [c]. split; [done|].
    repeat constructor. }
  unfold SEPARATORS in Hlit, Hone. cbn [fmap list_fmap] in Hlit, Hone.
  intros [[[[H|H]|H]|H]|H].
  - apply in_class_spec in H. revert H. eval_lit. rewrite !elem_of_cons, elem_of_nil.
    intros [->|[->|[->|[]]]]; eapply Hone; try reflexivity; rewrite !elem_of_cons; tauto.
  - eapply Hlit; [|exact H]. rewrite !elem_of_cons; tauto.
  - eapply Hlit; [|exact H]. rewrite !elem_of_cons; tauto.
  - apply N.eqb_eq in H as ->. eapply Hone; try reflexivity. rewrite !elem_of_cons; tauto.
  - eapply Hlit; [|exact H]. rewrite !elem_of_cons; tauto.
Qed.

(** A literal that matches across the end of a fragment, into the
    separator behind it, also matches when a space stands behind the
    fragment. *)
Lemma lit_ci_straddle (p post rest : str) :
  ends_on_space p = true →
  (rest = [] ∨ ∃ c r, rest = c :: r ∧ c ∈ SEP_HEADS) →
  lit_ci p (post ++ rest) = true → lit_ci p (post ++ [32%N]) = true.
Proof.
  intros Hp Hrest. revert p Hp. induction post as [|a post IH]; intros [|x v] Hp; try done.
  - cbn [app]. destruct Hrest as [->|(c & r & -> & Hc)]; [done|].
    cbn [lit_ci ends_on_space] in *. rewrite andb_true_iff. intros [Hx _].
    apply andb_true_iff in Hp as [Hp _]. rewrite forallb_forall in Hp.
    apply list_elem_of_In, Hp in Hc. rewrite Hx in Hc. cbn in Hc.
    apply andb_true_iff in Hc as [Hx32 Hv]. apply N.eqb_eq in Hx32 as ->.
    by destruct v.
  - cbn [app lit_ci]. rewrite !andb_true_iff. intros [Ha Hl]. split; [done|].
    apply IH; [|done]. cbn [ends_on_space] in Hp. by apply andb_true_iff in Hp as [_ Hp].
Qed.

Lemma match_sep_straddle (post rest : str) :
  post ≠ [] →
  (rest = [] ∨ ∃ c r, rest = c :: r ∧ c ∈ SEP_HEADS) →
  match_sep (post ++ rest) ≠ None → match_sep (post ++ [32%N]) ≠ None.
Proof.
  destruct post as [|c post]; [done|]. intros _ Hrest.
  rewrite <- !app_comm_cons, !match_sep_some, !orb_true_iff.
  assert (∀ p, ends_on_space (tail p) = true →
               lit_ci p (c :: post ++ rest) = true →
               lit_ci p (c :: post ++ [32%N]) = true) as Hl.
  { intros [|x v] Hv; [done|]. cbn [lit_ci tail] in *. rewrite !andb_true_iff.
    intros [? ?]. split; [done|]. by apply (lit_ci_straddle v post rest). }
  intros [[[[H|H]|H]|H]|H]; auto 10.
Qed.

(** Inside a fragment that holds no separator, no match starts,
    whatever separator follows the fragment. *)
Lemma sep_free_scan (f rest : str) :
  sep_free f →
  (rest = [] ∨ ∃ s r, is_separator s ∧ rest = s ++ r) →
  ∀ pre post, f = pre ++ post → post ≠ [] → match_sep (post ++ rest) = None.
Proof.
  intros Hf Hrest pre post -> Hpost.
  destruct (match_sep (post ++ rest)) as [n|] eqn:E; [exfalso|done].
  assert (match_sep (post ++ [32%N]) ≠ None) as H.
  { apply (match_sep_straddle post rest); [done| |by rewrite E].
    destruct Hrest as [->|(s & r & Hs & ->)]; [by left|right].
    apply is_separator_head in Hs as (c & s' & -> & Hc). by exists c, (s' ++ r). }
  apply match_sep_is_separator in H as (s & r & Hs & E').
  apply (Hf pre s r Hs). by rewrite <- app_assoc, E'.
Qed.

Lemma ci_variant_refl (p : str) : ci_variant p p.
Proof. induction p; constructor; [by left | done]. Qed.

Lemma sep_free_b_spec (f : str) : sep_free_b f = true → sep_free f.
Proof.
  unfold sep_free_b. rewrite forallb_forall. intros H pre s post Hs E.
  destruct (is_separator_match s post Hs) as [Hne Hm].
  specialize (H (length pre)). rewrite E, drop_app_length, Hm in H.
  assert (length pre < length f + 1) as Hlt.
  { apply (f_equal length) in E. rewrite !length_app in E. cbn in E.
    destruct s; [done|]. cbn in E. lia. }
  assert (false = true) as Hc; [|done]. apply H, in_seq. lia.
Qed.

Lemma join_cons (f0 s f : str) (tl : list (str * str)) :
  join f0 ((s, f) :: tl) = f0 ++ s ++ join f tl.
Proof. unfold join. cbn. by rewrite <- app_assoc. Qed.

Lemma re_split_join (cur f0 : str) (tl : list (str * str)) :
  Forall (λ sf, is_separator sf.1) tl →
  Forall sep_free (f0 :: tl.*2) →
  re_split_aux match_sep 0 cur (join f0 tl) = (cur ++ f0) :: tl.*2.
Proof.
  intros Hs. revert cur f0. induction Hs as [|[s f] tl Hsep _ IH]; intros cur f0 Hf.
  - unfold join. cbn. apply Forall_cons in Hf as [Hf _].
    rewrite re_split_fragment; [done|]. apply sep_free_scan; auto.
  - rewrite join_cons. apply Forall_cons in Hf as [Hf0 Hf]. cbn [fst] in Hsep.
    rewrite re_split_fragment by (apply sep_free_scan; eauto).
    destruct (is_separator_match s (join f tl) Hsep) as [Hne Hm].
    rewrite re_split_separator by done. cbn [fmap list_fmap snd]. f_equal.
    by apply IH.
Qed.

Lemma lstrip_id (s : str) : (∀ c, head s = Some c → is_space c = false) → lstrip s = s.
Proof. destruct s as [|c s]; [done|]. intros H. cbn. by rewrite (H c). Qed.

Lemma strip_trimmed (t : str) : trimmed t → strip t = t.
Proof.
  intros H. unfold strip, rstrip. rewrite (lstrip_id t) by (intros c Hc; apply H; by left).
  rewrite lstrip_id; [apply rev_involutive|].
  intros c. rewrite head_rev. intros Hc. apply H. by right.
Qed.

Lemma keep_names_filter (parts : list str) :
  keep_names parts = filter (λ p, p ≠ []) (clean_name <$> parts).
Proof.
  induction parts as [|p parts IH]; [done|]. cbn [keep_names]. cbv zeta.
  assert (strip (clean_name p) = clean_name p) as ->.
  { apply strip_trimmed. unfold clean_name. apply trimmed_strip. }
  rewrite fmap_cons. destruct (clean_name p) as [|c q] eqn:E; cbn [nonempty].
  - by rewrite filter_cons_False by (intros H; by apply H).
  - rewrite filter_cons_True by done. by rewrite IH.
Qed.

Lemma join_nil (f0 : str) (tl : list (str * str)) :
  Forall (λ sf, is_separator sf.1) tl → join f0 tl = [] → f0 = [] ∧ tl = [].
Proof.
  intros Hs E. unfold join in E. apply app_eq_nil in E as [-> E]. split; [done|].
  destruct tl as [|[s f] tl]; [done|]. apply Forall_cons in Hs as [Hs _].
  cbn in E. apply app_eq_nil in E as [E _]. apply app_eq_nil in E as [-> _].
  by destruct (is_separator_match [] [] Hs).
Qed.

(** C6: the splitter cuts the cell at the separators [;], [,], [/], [&]
    and the words feat., ft. and and as the pattern writes them between
    spaces, in any case; it cleans each fragment with the Name Normalizer
    and drops those that are empty after cleaning, without removing
    duplicates.  So for a cell made of [k] fragments between separators,
    no fragment holding a separator (also when a space is put behind
    it): the result is the cleaned fragments, in order, less the empty
    ones; and when each fragment has a non-empty cleaned name, exactly
    [k] non-empty trimmed names. *)
Theorem split_artists_fragments (f0 : str) (tl : list (str * str)) :
  Forall (λ sf, is_separator sf.1) tl →
  Forall sep_free (f0 :: tl.*2) →
  split_artists (VStr (join f0 tl))
  = Ok (filter (λ p, p ≠ []) (clean_name <$> f0 :: tl.*2))
  ∧ (Forall (λ f, clean_name f ≠ []) (f0 :: tl.*2) →
     ∃ out, split_artists (VStr (join f0 tl)) = Ok out
       ∧ out = clean_name <$> f0 :: tl.*2
       ∧ length out = S (length tl)
       ∧ Forall (λ p, p ≠ [] ∧ trimmed p) out).
Proof.
  intros Hs Hf.
  assert (split_artists (VStr (join f0 tl))
          = Ok (filter (λ p, p ≠ []) (clean_name <$> f0 :: tl.*2))) as E.
  { unfold split_artists. destruct (join f0 tl) as [|c cell] eqn:Ej.
    - apply join_nil in Ej as [-> ->]; [|done]. cbn [truthy nonempty negb].
      rewrite <- keep_names_filter. done.
    - cbn [truthy nonempty negb]. rewrite <- Ej. unfold re_split.
      rewrite re_split_join by done. by rewrite keep_names_filter. }
  split; [done|]. intros Hne. exists (clean_name <$> f0 :: tl.*2).
  assert (filter (λ p, p ≠ []) (clean_name <$> f0 :: tl.*2) = clean_name <$> f0 :: tl.*2)
    as Hall.
  { clear E Hf Hs. induction Hne as [|f fs Hf _ IH]; [done|].
    rewrite fmap_cons, filter_cons_True by done. by rewrite IH. }
  rewrite E, Hall. repeat split.
  - by rewrite length_fmap, length_cons, length_fmap.
  - apply Forall_fmap. eapply Forall_impl; [exact Hne|]. intros f Hfne. split; [done|].
    unfold clean_name. apply trimmed_strip.
Qed.

(** ** Further properties of the URL normalization *)

Lemma normalize_url_ok (u : pyval) (r : str) : normalize_image_url u = Ok r → url_ok r.
Proof.
  unfold normalize_image_url, url_ok. destruct (truthy u); cbn [negb].
  - destruct u; try done. intros [= <-]. apply normalize_str_shape.
  - intros [= <-]. by left.
Qed.

(** X1: whatever value it is given, when [normalize_image_url] returns,
    the result is the empty string or an absolute http(s) URL that holds
    no question mark. *)
Theorem normalize_image_url_shape (u : pyval) (r : str) :
  normalize_image_url u = Ok r → r = [] ∨ ((63%N ∉ r) ∧ is_http r = true).
Proof. apply normalize_url_ok. Qed.

(** X2: on a string whose text before the first question mark is [b]:
    a protocol-relative [b] gets the scheme https, a site-relative [b]
    gets the host duckduckgo.com, an absolute http(s) [b] is returned as
    it is, and any other [b] gives the empty string. *)
Theorem normalize_str_cases (u : str) :
  let b := before 63 u in
  (startswith (lit "//") b = true → normalize_str u = lit "https:" ++ b)
  ∧ (startswith (lit "/") b = true → startswith (lit "//") b = false →
     normalize_str u = lit "https://duckduckgo.com" ++ b)
  ∧ (is_http b = true → normalize_str u = b)
  ∧ (startswith (lit "/") b = false → is_http b = false → normalize_str u = []).
Proof.
  cbv zeta. unfold normalize_str, is_http. generalize (before 63 u). intros b.
  split; [|split; [|split]].
  - intros H. rewrite H. destruct b as [|c0 [|c1 b]]; cbn in H; try done.
    { by rewrite andb_false_r in H. }
    apply andb_true_iff in H as [H0 H1]. apply andb_true_iff in H1 as [H1 _].
    apply N.eqb_eq in H0, H1. subst.
    change (startswith (lit "/") (lit "https:" ++ 47%N :: 47%N :: b)) with false.
    change (startswith (lit "https://") (lit "https:" ++ 47%N :: 47%N :: b)) with true.
    cbv iota. rewrite orb_true_r. by destruct (existsb _ IMAGE_EXTS).
  - intros H1 H2. rewrite H2, H1.
    destruct b as [|c0 b]; [done|].
    change (startswith (lit "https://") (lit "https://duckduckgo.com" ++ c0 :: b)) with true.
    rewrite orb_true_r. by destruct (existsb _ IMAGE_EXTS).
  - intros H.
    assert (∃ t, b = 104%N :: t) as [t ->].
    { destruct b as [|c t]; [done|]. exists t. f_equal.
      apply orb_true_iff in H as [H|H]; cbn in H;
        apply andb_true_iff in H as [H _]; apply N.eqb_eq in H; done. }
    change (startswith (lit "//") (104%N :: t)) with false. cbv iota.
    change (startswith (lit "/") (104%N :: t)) with false. cbv iota.
    rewrite H. by destruct (existsb _ IMAGE_EXTS).
  - intros H1 H2.
    assert (startswith (lit "//") b = false) as ->.
    { apply not_true_iff_false. intros H. apply startswith_spec in H as [post ->].
      by vm_compute in H1. }
    by rewrite H1, H2.
Qed.

(** ** Further properties of the Name Normalizer *)

Lemma re_sub_sublist (m : str → option nat) (s : str) : re_sub m s `sublist_of` s.
Proof.
  remember (length s) as n eqn:En. revert s En.
  induction n as [n IH] using lt_wf_ind. intros [|c t] ->; [done|].
  rewrite re_sub_cons. destruct (m (c :: t)) as [[|k]|].
  - apply sublist_skip, (IH (length t)); [cbn; lia|done].
  - apply sublist_cons. etrans; [|apply sublist_drop].
    apply (IH (length (drop k t))); [rewrite length_drop; cbn; lia|done].
  - apply sublist_skip, (IH (length t)); [cbn; lia|done].
Qed.

Lemma strip_sublist (s : str) : strip s `sublist_of` s.
Proof.
  destruct (strip_infix s) as (a & b & E). rewrite E at 2.
  apply sublist_inserts_l, sublist_inserts_r. done.
Qed.

Lemma sublist_elem (l k : str) (x : char) : l `sublist_of` k → x ∈ l → x ∈ k.
Proof.
  induction 1 as [|y l k _ IH|y l k _ IH]; [done| |].
  - rewrite !elem_of_cons. intros [->|H]; auto.
  - intros H. right. auto.
Qed.

(** X3: the Name Normalizer only takes characters away: the cleaned
    name is a subsequence of the raw name, so it is never longer and holds
    no character the raw name does not hold. *)
Theorem clean_name_sublist (n : str) :
  clean_name n `sublist_of` n
  ∧ length (clean_name n) ≤ length n
  ∧ ∀ c, c ∈ clean_name n → c ∈ n.
Proof.
  assert (clean_name n `sublist_of` n) as H.
  { unfold clean_name. cbv zeta. etrans; [apply strip_sublist|].
    etrans; apply re_sub_sublist. }
  split; [done|]. split; [by apply sublist_length|].
  intros c Hc. by apply (sublist_elem _ _ c H).
Qed.

Lemma re_sub_no_match (m : str → option nat) (s : str) : no_match m s → re_sub m s = s.
Proof.
  induction s as [|c t IH]; [done|]. intros H. rewrite re_sub_cons.
  rewrite (H [] (c :: t) eq_refl). f_equal. apply IH.
  intros pre post ->. by apply (H (c :: pre)).
Qed.

Lemma no_match_without (m : str → option nat) (x : char) (s : str) :
  m [] = None → (∀ c t, c ≠ x → m (c :: t) = None) → x ∉ s → no_match m s.
Proof.
  intros Hnil Hm Hx pre post ->. destruct post as [|c t]; [done|]. apply Hm.
  intros ->. apply Hx. apply elem_of_app. right. left.
Qed.

(** X4: a raw name that holds neither an opening parenthesis nor an
    opening bracket is only trimmed. *)
Theorem clean_name_plain (n : str) : 40%N ∉ n → 91%N ∉ n → clean_name n = strip n.
Proof.
  intros H40 H91. unfold clean_name. cbv zeta.
  rewrite (re_sub_no_match match_feat n).
  - rewrite (re_sub_no_match match_bracket n); [done|].
    apply (no_match_without _ 91%N); [done| |done].
    intros c t Hc. by apply match_bracket_head.
  - apply (no_match_without _ 40%N); [done| |done].
    intros c t Hc. by apply match_feat_head.
Qed.

Lemma clean_name_no_match (n : str) :
  no_match match_bracket (clean_name n)
  ∧ (flat false n = true → no_match match_feat (clean_name n)).
Proof.
  unfold clean_name. cbv zeta.
  destruct (strip_infix (re_sub match_bracket (re_sub match_feat n))) as (a & b & E).
  split.
  - apply (no_match_infix _ a _ b match_bracket_mono). rewrite <- E. apply no_match_bracket.
  - intros Hf. apply (no_match_infix _ a _ b match_feat_mono). rewrite <- E.
    assert (no_match match_feat (re_sub match_feat n)) as H1.
    { apply no_match_feat_pass; [|apply match_feat_pos|done..].
      intros c u Hc _. by apply match_feat_head. }
    apply no_match_feat_pass.
    + intros c u _ Hc. by apply match_bracket_head.
    + apply match_bracket_pos.
    + intros pre post Es _. by apply (H1 pre).
    + by apply flat_re_sub_feat.
Qed.

(** X5: on a raw name in which no parenthesis or bracket opens inside an
    open parenthesis, cleaning twice gives what cleaning once gives. *)
Theorem clean_name_idempotent (n : str) :
  flat false n = true → clean_name (clean_name n) = clean_name n.
Proof.
  intros Hf. destruct (clean_name_no_match n) as [Hb Hfeat]. specialize (Hfeat Hf).
  unfold clean_name at 1. cbv zeta.
  rewrite (re_sub_no_match match_feat) by done.
  rewrite (re_sub_no_match match_bracket) by done.
  apply strip_trimmed. unfold clean_name. apply trimmed_strip.
Qed.

(** ** Further properties of the Splitter *)

Lemma match_sep_pos (s : str) : match_sep s ≠ Some 0.
Proof.
  destruct s as [|c t]; [done|]. unfold match_sep.
  repeat match goal with |- context [if ?b then _ else _] => destruct b; [done|] end.
  done.
Qed.

Lemma match_sep_none_char (c : char) (t : str) :
  match_sep (c :: t) = None → c ∉ SINGLE_SEPS.
Proof.
  clear lower quote urlopen_json rng.
  unfold match_sep. destruct (in_class (lit ";,/") c) eqn:E1; [done|].
  destruct (lit_ci (lit " feat.") _); [done|]. destruct (lit_ci (lit " ft. ") _); [done|].
  destruct (N.eqb_spec c 38) as [|E2]; [done|]. intros _.
  apply not_in_class in E1. revert E1. eval_lit. unfold SINGLE_SEPS.
  rewrite !not_elem_of_cons. tauto.
Qed.

Lemma match_sep_single (c : char) (b : str) : c ∈ SINGLE_SEPS → match_sep (c :: b) = Some 1.
Proof.
  unfold SINGLE_SEPS. rewrite !elem_of_cons, elem_of_nil.
  intros [->|[->|[->|[->|[]]]]]; reflexivity.
Qed.

(** No piece of the split holds a separator of one character. *)
Lemma re_split_pieces (cur s : str) :
  Forall (λ c, c ∉ SINGLE_SEPS) cur →
  Forall (Forall (λ c, c ∉ SINGLE_SEPS)) (re_split_aux match_sep 0 cur s).
Proof.
  remember (length s) as n eqn:En. revert cur s En.
  induction n as [n IH] using lt_wf_ind. intros cur [|c t] -> Hcur.
  - by repeat constructor.
  - rewrite re_split_cons. destruct (match_sep (c :: t)) as [[|k]|] eqn:Em.
    + by apply match_sep_pos in Em.
    + constructor; [done|].
      apply (IH (length (drop k t))); [rewrite length_drop; cbn; lia|done|constructor].
    + apply (IH (length t)); [cbn; lia|done|].
      apply Forall_app. split; [done|]. repeat constructor. by eapply match_sep_none_char.
Qed.

Lemma split_artists_pieces (s : str) :
  split_artists (VStr s) = Ok (keep_names (re_split match_sep s)).
Proof. by destruct s. Qed.

(** X6: on every string the splitter returns, and each name it returns
    is non-empty, has no white space at its ends and holds none of the
    characters [;] [,] [/] [&]. *)
Theorem split_artists_names (s : str) :
  ∃ out, split_artists (VStr s) = Ok out
    ∧ Forall (λ p, p ≠ [] ∧ trimmed p ∧ ∀ c, c ∈ p → c ∉ SINGLE_SEPS) out.
Proof.
  clear quote urlopen_json rng.
  exists (keep_names (re_split match_sep s)). split; [apply split_artists_pieces|].
  rewrite keep_names_filter. apply Forall_forall. intros p Hp.
  apply list_elem_of_filter in Hp as [Hne Hp].
  apply list_elem_of_fmap in Hp as (q & -> & Hq).
  split; [done|]. split; [unfold clean_name; apply trimmed_strip|].
  intros c Hc.
  pose proof (re_split_pieces [] s (Forall_nil_2 _)) as Hall.
  rewrite Forall_forall in Hall. specialize (Hall q Hq). rewrite Forall_forall in Hall.
  apply Hall. eapply sublist_elem; [|exact Hc].
  unfold clean_name. cbv zeta. etrans; [apply strip_sublist|]. etrans; apply re_sub_sublist.
Qed.

Lemma lit_ci_cut (p post : str) (c : char) (b : str) :
  (∀ x, x ∈ p → ci_eq x c = false) → lit_ci p (post ++ c :: b) = lit_ci p post.
Proof.
  revert p. induction post as [|a post IH]; intros [|x v] Hp; try done.
  - cbn. rewrite Hp; [done|by left].
  - cbn. rewrite IH; [done|]. intros y Hy. apply Hp. by right.
Qed.

Lemma lit_ci_length (p s : str) : lit_ci p s = true → length p ≤ length s.
Proof.
  revert s. induction p as [|x p IH]; intros [|c s]; cbn; try done; [lia|].
  rewrite andb_true_iff. intros [_ H]. apply IH in H. lia.
Qed.

Lemma match_sep_length (s : str) (n : nat) : match_sep s = Some n → n ≤ length s.
Proof.
  destruct s as [|c t]; [done|]. unfold match_sep.
  destruct (in_class _ c); [intros [= <-]; cbn; lia|].
  destruct (lit_ci (lit " feat.") _) eqn:E1; [intros [= <-]; by apply lit_ci_length in E1|].
  destruct (lit_ci (lit " ft. ") _) eqn:E2; [intros [= <-]; by apply lit_ci_length in E2|].
  destruct (c =? 38)%N; [intros [= <-]; cbn; lia|].
  destruct (lit_ci (lit " and ") _) eqn:E3; [intros [= <-]; by apply lit_ci_length in E3|].
  done.
Qed.

(** Before a separator of one character, the matches are those of the
    text alone. *)
Lemma match_sep_cut (a : char) (post : str) (c : char) (b : str) :
  c ∈ SINGLE_SEPS → match_sep (a :: post ++ c :: b) = match_sep (a :: post).
Proof.
  intros Hc. unfold match_sep.
  rewrite !(lit_ci_cut _ (a :: post) c b); [done|..];
    apply existsb_none; revert Hc; unfold SINGLE_SEPS;
    rewrite !elem_of_cons, elem_of_nil; intros [->|[->|[->|[->|[]]]]]; reflexivity.
Qed.

Lemma re_split_cut (cur a : str) (c : char) (b : str) :
  c ∈ SINGLE_SEPS →
  re_split_aux match_sep 0 cur (a ++ c :: b)
  = re_split_aux match_sep 0 cur a ++ re_split_aux match_sep 0 [] b.
Proof.
  intros Hc. remember (length a) as n eqn:En. revert cur a En.
  induction n as [n IH] using lt_wf_ind. intros cur [|x t] ->.
  - cbn [app]. rewrite re_split_cons, (match_sep_single c b Hc). done.
  - rewrite <- app_comm_cons, !re_split_cons, match_sep_cut by done.
    destruct (match_sep (x :: t)) as [[|k]|] eqn:Em.
    + apply (IH (length t)); [cbn; lia|done].
    + apply match_sep_length in Em. cbn in Em.
      rewrite drop_app_le by lia. rewrite <- app_comm_cons. f_equal.
      apply (IH (length (drop k t))); [rewrite length_drop; cbn; lia|done].
    + apply (IH (length t)); [cbn; lia|done].
Qed.

Lemma keep_names_app (l1 l2 : list str) :
  keep_names (l1 ++ l2) = keep_names l1 ++ keep_names l2.
Proof. by rewrite !keep_names_filter, fmap_app, filter_app. Qed.

(** X7: a cell cut by one of [;] [,] [/] [&] gives the names of the
    text before it followed by the names of the text after it; and a row
    with such a cell adds the artists that two rows, one with each text,
    add. *)
Theorem split_artists_cut (a b : str) (c : char) :
  c ∈ SINGLE_SEPS →
  split_artists (VStr (a ++ c :: b))
  = (A ← split_artists (VStr a); B ← split_artists (VStr b); Ok (A ++ B))
  ∧ ∀ row rowa rowb rest st,
      raw_of row = VStr (a ++ c :: b) → raw_of rowa = VStr a → raw_of rowb = VStr b →
      read_rows (row :: rest) st = read_rows (rowa :: rowb :: rest) st.
Proof.
  intros Hc.
  assert (split_artists (VStr (a ++ c :: b))
          = Ok (keep_names (re_split match_sep a) ++ keep_names (re_split match_sep b))) as E.
  { rewrite split_artists_pieces. unfold re_split.
    by rewrite re_split_cut, keep_names_app by done. }
  split.
  - rewrite E, !split_artists_pieces. done.
  - intros row rowa rowb rest st Hr Ha Hb. cbn [read_rows].
    rewrite Hr, Ha, Hb, E, !split_artists_pieces. cbn. by rewrite foldl_app.
Qed.

(** ** Further properties of the reader *)

Lemma see_unique (fs : list str) :
  NoDup (lower <$> fs) → (foldl see ([], ∅) fs).1 = fs.
Proof.
  induction fs as [|p fs IH] using rev_ind; [done|].
  rewrite fmap_app, NoDup_app. intros (Hnd & Hp & _).
  rewrite foldl_app. cbn [foldl]. destruct (see_all fs) as (Hseen & _).
  specialize (IH Hnd). destruct (foldl see ([], ∅) fs) as [out seen].
  cbn [fst snd] in *. subst out. unfold see. cbn [fst snd].
  destruct (decide (lower p ∉ seen)) as [|Hold]; [done|].
  exfalso. apply dec_stable in Hold. apply Hseen in Hold.
  apply (Hp (lower p)); [done|]. cbn. left.
Qed.

(** X8: when no two fragments of the input have the same lower-cased
    form, the reader returns all fragments, in the order of the scan. *)
Theorem read_csv_no_duplicates (rows : list (gmap (list N) pyval)) (frags : list str) :
  scan_fragments rows = Ok frags → NoDup (lower <$> frags) →
  read_csv (Some rows) = Ok frags.
Proof.
  intros Hf Hnd. unfold read_csv. rewrite (read_rows_scan rows frags ([], ∅) Hf). cbn.
  by rewrite see_unique.
Qed.





(** ** Further properties of the Image Resolver *)

Lemma normalize_result_ok (u : pyval) : result_ok (normalize_image_url u).
Proof.
  destruct (normalize_image_url u) as [r|e] eqn:E; cbn.
  - by apply (normalize_url_ok u).
  - unfold normalize_image_url in E. destruct (negb (truthy u)); [done|].
    destruct u; congruence.
Qed.

Lemma get_raise (v : pyval) (k : str) (e : exn) : get v k = Raise e → e = AttributeError.
Proof. destruct v; cbn; congruence. Qed.

Lemma get_or_raise (v : pyval) (k1 k2 : str) (e : exn) :
  get_or v k1 k2 = Raise e → e = AttributeError.
Proof.
  unfold get_or. destruct (get v k1) as [a|e1] eqn:E1; cbn.
  - destruct (truthy a); [done|]. apply get_raise.
  - intros [= <-]. by apply get_raise in E1.
Qed.

Lemma icon_url_hit_ok (item : pyval) : hit_ok (icon_url item).
Proof.
  unfold icon_url.
  destruct (get item (lit "Icon")) as [i|e] eqn:Ei; cbn [mbind res_bind];
    [|by apply get_raise in Ei].
  destruct (get_or _ (lit "URL") (lit "url")) as [url_icon|e] eqn:Eu; cbn [mbind res_bind];
    [|by apply get_or_raise in Eu].
  destruct (truthy url_icon); [|done].
  destruct url_icon as [| | | |s| |]; cbn [strip_of mbind res_bind]; try done.
  destruct (nonempty (strip s)); [|done].
  pose proof (normalize_result_ok (VStr s)) as H.
  by destruct (normalize_image_url (VStr s)).
Qed.

Lemma scan_topics_hit_ok (l : list pyval) : hit_ok (scan_topics l).
Proof.
  induction l as [|sub l IH]; [done|]. cbn [scan_topics].
  assert (hit_ok (if is_dict sub then icon_url sub else Ok None)) as H.
  { destruct (is_dict sub); [apply icon_url_hit_ok|done]. }
  by destruct (if is_dict sub then icon_url sub else Ok None) as [[r|]|].
Qed.

Lemma scan_related_hit_ok (l : list pyval) : hit_ok (scan_related l).
Proof.
  induction l as [|item l IH]; [done|]. cbn [scan_related].
  assert (hit_ok (if is_dict item then icon_url item else Ok None)) as H.
  { destruct (is_dict item); [apply icon_url_hit_ok|done]. }
  destruct (if is_dict item then icon_url item else Ok None) as [[r|]|]; try done.
  cbn [mbind res_bind].
  destruct (if is_dict item then get item (lit "Topics") else Ok VNone) as [topics|e] eqn:Et;
    cbn [mbind res_bind].
  - assert (hit_ok match topics with
                   | VList l0 => if truthy topics then scan_topics l0 else Ok None
                   | _ => Ok None
                   end) as H'.
    { destruct topics; try done. destruct (truthy _); [apply scan_topics_hit_ok|done]. }
    by destruct (match topics with VList _ => _ | _ => _ end) as [[r|]|].
  - destruct (is_dict item); [by apply get_raise in Et|done].
Qed.

Lemma extract_image_result_ok (j : pyval) : result_ok (extract_image j).
Proof.
  unfold extract_image.
  destruct (get_or j (lit "Image") (lit "image")) as [img|e] eqn:Ei; cbn [mbind res_bind];
    [|by apply get_or_raise in Ei].
  assert (hit_ok match img with
                 | VStr s => if truthy img && nonempty (strip s)
                             then Some <$> normalize_image_url img else Ok None
                 | _ => Ok None
                 end) as H.
  { destruct img as [| | | |s| |]; try done. destruct (_ && _); [|done].
    pose proof (normalize_result_ok (VStr s)) as H.
    by destruct (normalize_image_url (VStr s)). }
  destruct (match img with VStr _ => _ | _ => _ end) as [[r|]|]; try done.
  cbn [mbind res_bind].
  destruct (get j (lit "RelatedTopics")) as [rt|e] eqn:Er; cbn [mbind res_bind];
    [|by apply get_raise in Er].
  assert (hit_ok match (if truthy rt then rt else VList []) with
                 | VList l => scan_related l
                 | _ => Ok None
                 end) as H'.
  { destruct (if truthy rt then rt else VList []); try done. apply scan_related_hit_ok. }
  destruct (match (if truthy rt then rt else VList []) with VList _ => _ | _ => _ end)
    as [[r|]|]; try done.
  cbn [mbind res_bind].
  destruct (get j (lit "AbstractImage")) as [a|e] eqn:Ea; cbn [mbind res_bind];
    [|by apply get_raise in Ea].
  destruct (truthy a); [apply normalize_result_ok|by left].
Qed.

Lemma ddg_search_image_ok (i : nat) (artist : str) : result_ok (ddg_search_image i artist).
Proof.
  unfold ddg_search_image. destruct (urlopen_json i (query_url artist)) as [j|].
  - apply extract_image_result_ok.
  - by left.
Qed.

(** X10: on every decoded body, the part of [ddg_search_image] behind
    the [try] block gives the empty string or an absolute http(s) URL
    without query string, or it raises an AttributeError and nothing else;
    and whenever [ddg_search_image] returns, it returns the empty string or
    such a URL, as its docstring says. *)
Theorem ddg_search_image_shape :
  (∀ j, match extract_image j with
        | Ok r => r = [] ∨ ((63%N ∉ r) ∧ is_http r = true)
        | Raise e => e = AttributeError
        end)
  ∧ (∀ i artist r,
       ddg_search_image i artist = Ok r → r = [] ∨ ((63%N ∉ r) ∧ is_http r = true)).
Proof.
  split.
  - apply extract_image_result_ok.
  - intros i artist r E. pose proof (ddg_search_image_ok i artist) as H.
    by rewrite E in H.
Qed.

(** X11: when the top-level image field ('Image', or 'image' when
    'Image' is falsy) is a string that holds a character other than white
    space, the resolver returns its normalized form and looks at nothing
    else in the body: not at the related topics, whatever they hold, also
    when the normalized form is the empty string. *)
Theorem extract_image_top_image (j : pyval) (s : str) :
  is_dict j = true →
  or_else (lookup_key j (lit "Image")) (lookup_key j (lit "image")) = VStr s →
  nonempty (strip s) = true →
  extract_image j = Ok (normalize_str s).
Proof.
  intros Hd Himg Hs. unfold extract_image. rewrite get_or_dict by done.
  cbn [mbind res_bind]. rewrite Himg, Hs.
  destruct s as [|c s]; [done|]. reflexivity.
Qed.

Lemma extract_image_not_object (j : pyval) :
  is_dict j = false → extract_image j = Raise AttributeError.
Proof. by destruct j. Qed.

Lemma build_all_stops (i : nat) (pre : list str) (artist : str) (rest : list str) :
  ddg_search_image (i + length pre) artist = Raise AttributeError →
  build_all i (pre ++ artist :: rest) = Raise AttributeError.
Proof.
  revert i. induction pre as [|p pre IH]; intros i; cbn [app length build_all].
  - rewrite Nat.add_0_r. intros E. by rewrite build_entry_image, E.
  - intros E. rewrite IH by (by rewrite <- Nat.add_succ_comm in E).
    rewrite build_entry_image. pose proof (ddg_search_image_ok i p) as Hok.
    destruct (ddg_search_image i p) as [img|e]; cbn [mbind res_bind]; [done|].
    cbn in Hok. by subst.
Qed.

(** X12: a decoded body that is not an object makes the lookup of its
    artist raise an AttributeError, which nothing catches: wherever that
    artist stands in the list of the reader, the loop of [main] does not
    end and [main] gets no list to hand to [json.dump]. *)
Theorem body_not_object (i : nat) (pre : list str) (artist : str) (rest : list str)
    (j : pyval) :
  urlopen_json (i + length pre) (query_url artist) = Some j → is_dict j = false →
  ddg_search_image (i + length pre) artist = Raise AttributeError
  ∧ (∀ out, build_all i (pre ++ artist :: rest) ≠ Ok out)
  ∧ ∀ file, i = 1 → read_csv file = Ok (pre ++ artist :: rest) → ∀ out, main file ≠ Ok out.
Proof.
  intros Hj Hd.
  assert (ddg_search_image (i + length pre) artist = Raise AttributeError) as E.
  { unfold ddg_search_image. rewrite Hj. by apply extract_image_not_object. }
  pose proof (build_all_stops i pre artist rest E) as E'.
  split; [done|]. split; [by rewrite E'|].
  intros file -> Hf out. unfold main. rewrite Hf. cbn. by rewrite E'.
Qed.

(** X13: the scan of the related topics over two lists put together is
    the scan of the first and, only when that finds no icon and raises
    nothing, the scan of the second. *)
Theorem scan_related_app (l1 l2 : list pyval) :
  scan_related (l1 ++ l2)
  = hit ← scan_related l1;
    match hit with
    | Some r => Ok (Some r)
    | None => scan_related l2
    end.
Proof.
  induction l1 as [|item l1 IH]; [done|]. cbn [app scan_related]. rewrite IH.
  destruct (if is_dict item then icon_url item else Ok None) as [[r|]|]; try done.
  cbn [mbind res_bind].
  destruct (if is_dict item then get item (lit "Topics") else Ok VNone) as [topics|];
    [|done].
  cbn [mbind res_bind].
  by destruct (match topics with VList _ => _ | _ => _ end) as [[r|]|].
Qed.

(** ** Further properties of the Catalog Builder *)

Lemma rating_in (k : nat) : default [] (RATINGS !! (k mod length RATINGS)) ∈ RATINGS.
Proof.
  destruct (RATINGS !! (k mod length RATINGS)) as [x|] eqn:E.
  - cbn. by eapply list_elem_of_lookup_2.
  - apply lookup_ge_None in E.
    assert (k mod length RATINGS < length RATINGS) by (apply Nat.mod_upper_bound; done).
    lia.
Qed.

Lemma build_all_records (i : nat) (artists : list str) (out : list entry) :
  build_all i artists = Ok out →
  Forall (λ e, rating e ∈ RATINGS
               ∧ region_of e = guess_region (name e)
               ∧ url e = lit "https://open.spotify.com/search/artist%3A" ++ quote (name e)
               ∧ is_http (image e) = true) out.
Proof.
  revert i out. induction artists as [|a artists IH]; intros i out; cbn [build_all].
  - intros [= <-]. constructor.
  - rewrite build_entry_image. pose proof (ddg_search_image_ok i a) as Hok.
    destruct (ddg_search_image i a) as [img|]; [|done]. cbn [mbind res_bind].
    destruct (build_all (S i) artists) as [more|] eqn:E; [|done].
    cbn [mbind res_bind]. intros [= <-]. constructor; [|by eapply IH].
    cbn [rating region_of url image name]. split; [apply rating_in|].
    split; [done|]. split; [done|].
    destruct img as [|c img]; [reflexivity|]. cbn [nonempty].
    by destruct Hok as [|[_ ?]].
Qed.

(** X14: in every record [main] builds, the rating is one of the four
    of [RATINGS], the region is the class of the record's name, the link
    is the Spotify search prefix followed by the quoted name, and the image
    is an absolute http(s) URL. *)
Theorem main_records (file : option (list (gmap (list N) pyval))) (out : list entry) :
  main file = Ok out →
  Forall (λ e, rating e ∈ RATINGS
               ∧ region_of e = guess_region (name e)
               ∧ url e = lit "https://open.spotify.com/search/artist%3A" ++ quote (name e)
               ∧ is_http (image e) = true) out.
Proof.
  unfold main. destruct (read_csv file) as [artists|]; [|done]. cbn.
  apply build_all_records.
Qed.

Lemma extract_image_typed (j : pyval) : typed_body j = true → ∃ r, extract_image j = Ok r.
Proof.
  unfold typed_body. rewrite andb_true_iff. intros [Hs Ha].
  rewrite extract_image_resolved by done. unfold resolved, candidate. cbv zeta.
  destruct (nonblank (or_else _ _)) eqn:En.
  { destruct (normalize_nonblank _ En) as (s & _ & ->). eauto. }
  destruct (filter nonblank (icons j)) as [|u us] eqn:Ef.
  - destruct (truthy (lookup_key j (lit "AbstractImage"))) eqn:Et; [|eauto].
    cbn [negb orb] in Ha.
    destruct (lookup_key j (lit "AbstractImage")) as [| | | |s| |]; try done.
    unfold normalize_image_url. rewrite Et. eauto.
  - assert (nonblank u = true) as En'.
    { assert (u ∈ filter nonblank (icons j)) as Hu by (rewrite Ef; left).
      apply list_elem_of_filter in Hu as [Hu _]. by apply Is_true_true. }
    destruct (normalize_nonblank _ En') as (s & _ & ->). eauto.
Qed.

(** X15: on a body that is an object with typed icons whose
    'AbstractImage' is a string or nothing, the part of [ddg_search_image]
    behind the [try] block raises nothing: it returns the empty string or
    an absolute http(s) URL without query string, and that is what
    [ddg_search_image] returns for an artist whose request gives this
    body. *)
Theorem extract_image_total (j : pyval) :
  typed_body j = true →
  ∃ r, extract_image j = Ok r
    ∧ (r = [] ∨ ((63%N ∉ r) ∧ is_http r = true))
    ∧ ∀ i artist, urlopen_json i (query_url artist) = Some j → ddg_search_image i artist = Ok r.
Proof.
  intros Ht. destruct (extract_image_typed j Ht) as [r E]. exists r.
  split; [done|]. split.
  - pose proof (extract_image_result_ok j) as H. by rewrite E in H.
  - intros i artist Hj. unfold ddg_search_image. by rewrite Hj.
Qed.

End Script.

(** ** The script on concrete inputs

    The runs below take [lower_latin1] for [str.lower], leave names
    unquoted, and, where the network is asked, have every request
    fail. *)

Lemma sample_rows_cells : Forall csv_cells sample_rows.
Proof.
  unfold sample_rows.
  repeat (apply Forall_cons_2;
          [intros k v [[_ <-]|[_ [_ <-]%lookup_singleton_Some]]%lookup_insert_Some; eauto|]).
  apply Forall_nil_2.
Qed.

(** Scenario 1 of the specification. *)
Example scenario_nekfeu_laylow :
  split_artists (VStr (lit "Nekfeu, Laylow")) = Ok [lit "Nekfeu"; lit "Laylow"]
  ∧ guess_region lower_latin1 (lit "Nekfeu") = fr
  ∧ guess_region lower_latin1 (lit "Laylow") = fr.
Proof. by vm_compute. Qed.

(** Scenario 2 of the specification. *)
Example scenario_drake_remix :
  split_artists (VStr (lit "Drake (feat. 21 Savage) [Remix]")) = Ok [lit "Drake"]
  ∧ guess_region lower_latin1 (lit "Drake") = us.
Proof. by vm_compute. Qed.

Example read_sample_rows :
  read_csv lower_latin1 (Some sample_rows) = Ok [lit "PNL"; lit "Drake"; lit "Dave"].
Proof. by vm_compute. Qed.

Example resolve_typical :
  extract_image lower_latin1 body_typical = Ok (lit "https://duckduckgo.com/i/a.png").
Proof. by vm_compute. Qed.

(** A body that is not an object: the lookup raises outside the [try]
    block. *)
Example extract_image_of_list :
  extract_image lower_latin1 (VList []) = Raise AttributeError.
Proof. reflexivity. Qed.


Lemma image_never_empty_witness :
  Forall csv_cells sample_rows
  ∧ (∀ i artist, offline i (query_url (λ s, s) artist) = None)
  ∧ ∃ out,
      main lower_latin1 (λ s, s) offline (λ _, 0) (Some sample_rows) = Ok out
      ∧ Forall (λ e, image e = PLACEHOLDER) out.
Proof.
  split; [exact sample_rows_cells|]. split; [reflexivity|].
  apply (image_never_empty lower_latin1 (λ s, s) offline (λ _, 0));
    [exact sample_rows_cells | reflexivity].
Defined.

(** C3 as stated fails: the name Francois written with U+00E7 holds no
    keyword and no accented vowel, and is classified fr; the name Aout
    written with U+00FB holds an accented vowel and no keyword, and is
    classified other. *)
Lemma guess_region_not_vowels :
  let francois := [70; 114; 97; 110; 231; 111; 105; 115]%N in
  let aout := [65; 111; 251; 116]%N in
  ((∀ r, ¬ keyword_hit (lower_latin1 francois) r)
   ∧ (∀ c, c ∈ francois → c ∉ FRENCH_ACCENTED_VOWELS)
   ∧ guess_region lower_latin1 francois = fr)
  ∧ ((∀ r, ¬ keyword_hit (lower_latin1 aout) r)
     ∧ (∃ c, c ∈ aout ∧ c ∈ FRENCH_ACCENTED_VOWELS)
     ∧ guess_region lower_latin1 aout = other).
Proof.
  cbv zeta. split; split.
  - intros r H. by apply keyword_hit_scan in H.
  - split; [|by vm_compute]. intros c Hc. apply not_in_class.
    rewrite !elem_of_cons, elem_of_nil in Hc.
    destruct Hc as [->|[->|[->|[->|[->|[->|[->|[->|[]]]]]]]]]; by vm_compute.
  - intros r H. by apply keyword_hit_scan in H.
  - split; [|by vm_compute]. exists 251%N. split; apply in_class_spec; by vm_compute.
Qed.

Lemma clean_name_spec_witness :
  let n := lit "Drake (feat. 21 Savage) [Remix]" in
  flat false n = true
  ∧ trimmed (clean_name n) ∧ ¬ has_bracketed_line (clean_name n) ∧ ¬ has_feat (clean_name n).
Proof.
  cbv zeta. split; [reflexivity|].
  destruct (clean_name_spec (lit "Drake (feat. 21 Savage) [Remix]")) as (Ht & Hb & Hf).
  split; [exact Ht|]. split; [exact Hb|]. apply Hf. reflexivity.
Defined.

(** C4 as stated fails: the removal of a bracketed text can bring the
    two halves of a feat parenthesis together; and a bracketed text that
    runs over a line feed stays. *)
Lemma clean_name_leaves_feat :
  (clean_name (lit "PNL (fe[x]at. Damso)") = lit "PNL (feat. Damso)"
   ∧ has_feat (clean_name (lit "PNL (fe[x]at. Damso)")))
  ∧ (clean_name [91; 97; 10; 98; 93]%N = [91; 97; 10; 98; 93]%N
     ∧ has_bracketed (clean_name [91; 97; 10; 98; 93]%N)).
Proof.
  split; split; try by vm_compute.
  - exists (lit "PNL "), (lit "feat"), (lit ". Damso"), []. split; [by vm_compute|].
    apply ci_variant_refl.
  - by exists [], [97; 10; 98]%N, [].
Qed.

Lemma extract_image_priority_witness :
  shaped body_typical = true
  ∧ extract_image lower_latin1 body_typical
    = match candidate nonblank body_typical with
      | Some u => normalize_image_url lower_latin1 u
      | None => Ok []
      end.
Proof.
  split; [reflexivity|]. apply (extract_image_priority lower_latin1 body_typical).
  reflexivity.
Defined.

(** C5 as stated fails: the first non-empty icon URL of the body is a
    tab, whose normalized form is the empty string, and the resolver
    returns the icon URL of the next sub-topic. *)
Lemma extract_image_skips_blank :
  candidate nonempty_str body_blank_subtopic = Some (VStr [9%N])
  ∧ normalize_image_url lower_latin1 (VStr [9%N]) = Ok []
  ∧ extract_image lower_latin1 body_blank_subtopic = Ok (lit "https://duckduckgo.com/i/a.png").
Proof. by vm_compute. Qed.

Lemma split_artists_fragments_witness :
  let f0 := lit "Nekfeu" in
  let tl := [(lit ",", lit " Laylow"); (lit " feat.", lit " Damso"); (lit " AND ", lit "Nekfeu")] in
  Forall (λ sf, is_separator sf.1) tl
  ∧ Forall sep_free (f0 :: tl.*2)
  ∧ Forall (λ f, clean_name f ≠ []) (f0 :: tl.*2)
  ∧ join f0 tl = lit "Nekfeu, Laylow feat. Damso AND Nekfeu"
  ∧ ∃ out, split_artists (VStr (join f0 tl)) = Ok out
      ∧ out = clean_name <$> f0 :: tl.*2
      ∧ length out = S (length tl)
      ∧ Forall (λ p, p ≠ [] ∧ trimmed p) out.
Proof.
  cbv zeta.
  assert (Forall (λ sf : list N * list N, is_separator sf.1)
            [(lit ",", lit " Laylow"); (lit " feat.", lit " Damso"); (lit " AND ", lit "Nekfeu")])
    as Hs.
  { repeat apply Forall_cons_2; try apply Forall_nil_2; cbn [fst].
    - exists (lit ","). split; [|apply ci_variant_refl].
      unfold SEPARATORS. cbn [fmap list_fmap]. rewrite !elem_of_cons. tauto.
    - exists (lit " feat."). split; [|apply ci_variant_refl].
      unfold SEPARATORS. cbn [fmap list_fmap]. rewrite !elem_of_cons. tauto.
    - exists (lit " and "). split.
      + unfold SEPARATORS. cbn [fmap list_fmap]. rewrite !elem_of_cons. tauto.
      + eval_lit. unfold ci_variant, ci_char.
        repeat (constructor; [first [by left | right; split; [lia|split; [lia|reflexivity]]]|]).
        constructor. }
  assert (Forall sep_free (lit "Nekfeu" :: [lit " Laylow"; lit " Damso"; lit "Nekfeu"])) as Hf.
  { repeat apply Forall_cons_2; try apply Forall_nil_2; apply sep_free_b_spec; reflexivity. }
  assert (Forall (λ f, clean_name f ≠ [])
            (lit "Nekfeu" :: [lit " Laylow"; lit " Damso"; lit "Nekfeu"])) as Hne.
  { repeat apply Forall_cons_2; try apply Forall_nil_2; by vm_compute. }
  split; [exact Hs|]. split; [exact Hf|]. split; [exact Hne|]. split; [reflexivity|].
  exact (proj2 (split_artists_fragments _ _ Hs Hf) Hne).
Defined.



Lemma split_artists_falsy_witness :
  truthy VNone = false
  ∧ split_artists VNone = Ok []
  ∧ ∀ row rest st,
      raw_of row = VNone →
      read_rows lower_latin1 (row :: rest) st = read_rows lower_latin1 rest st.
Proof.
  split; [reflexivity|]. apply (split_artists_falsy lower_latin1 VNone). reflexivity.
Defined.

Lemma row_without_artist_witness :
  let row : gmap (list N) pyval :=
    {[ lit "Track Name" := VStr (lit "Au DD"); lit "Artist Name(s)" := VNone ]} in
  (∀ k, k ∈ CANDIDATE_COLUMNS → no_value (row !! k))
  ∧ raw_of row = VStr []
  ∧ split_artists (raw_of row) = Ok []
  ∧ read_rows lower_latin1 [row] ([], ∅) = read_rows lower_latin1 [] ([], ∅).
Proof.
  cbv zeta.
  assert (∀ k, k ∈ CANDIDATE_COLUMNS →
            no_value (({[ lit "Track Name" := VStr (lit "Au DD");
                          lit "Artist Name(s)" := VNone ]} : gmap (list N) pyval) !! k)) as H.
  { intros k Hk. unfold CANDIDATE_COLUMNS in Hk. cbn [fmap list_fmap] in Hk.
    rewrite !elem_of_cons, elem_of_nil in Hk.
    destruct Hk as [->|[->|[->|[]]]]; [right; left|left|left]; by vm_compute. }
  split; [exact H|]. exact (row_without_artist lower_latin1 _ [] ([], ∅) H).
Defined.

(** ** Further properties on concrete inputs *)

(** X17: the result of the normalization does not depend on the test of
    the file extension: with any two lower-casing functions the function
    answers the same. *)
Theorem normalize_extension_blind (lower1 lower2 : list N → list N) (u : pyval) :
  normalize_image_url lower1 u = normalize_image_url lower2 u.
Proof.
  unfold normalize_image_url. destruct (negb (truthy u)); [done|].
  destruct u; try done. f_equal. unfold normalize_str.
  destruct (_ || _); [|done].
  by destruct (existsb _ IMAGE_EXTS), (existsb _ IMAGE_EXTS).
Qed.

Lemma normalize_image_url_shape_witness :
  normalize_image_url lower_latin1 (VStr (lit "//x/y.png?s=1")) = Ok (lit "https://x/y.png")
  ∧ (lit "https://x/y.png" = []
     ∨ ((63%N ∉ lit "https://x/y.png") ∧ is_http (lit "https://x/y.png") = true)).
Proof.
  split; [reflexivity|].
  apply (normalize_image_url_shape lower_latin1 (VStr (lit "//x/y.png?s=1"))). reflexivity.
Defined.

Lemma normalize_str_cases_witness :
  (startswith (lit "//") (before 63 (lit "//x/y.png?s=1")) = true
   ∧ normalize_str lower_latin1 (lit "//x/y.png?s=1")
     = lit "https:" ++ before 63 (lit "//x/y.png?s=1"))
  ∧ (startswith (lit "/") (before 63 (lit "/i/a.png")) = true
     ∧ startswith (lit "//") (before 63 (lit "/i/a.png")) = false
     ∧ normalize_str lower_latin1 (lit "/i/a.png")
       = lit "https://duckduckgo.com" ++ before 63 (lit "/i/a.png"))
  ∧ (is_http (before 63 (lit "http://x/y?z")) = true
     ∧ normalize_str lower_latin1 (lit "http://x/y?z") = before 63 (lit "http://x/y?z"))
  ∧ (startswith (lit "/") (before 63 (lit "ftp://x/y.png")) = false
     ∧ is_http (before 63 (lit "ftp://x/y.png")) = false
     ∧ normalize_str lower_latin1 (lit "ftp://x/y.png") = []).
Proof.
  split; [|split; [|split]].
  - split; [reflexivity|].
    apply (proj1 (normalize_str_cases lower_latin1 (lit "//x/y.png?s=1"))). reflexivity.
  - split; [reflexivity|]. split; [reflexivity|].
    apply (proj1 (proj2 (normalize_str_cases lower_latin1 (lit "/i/a.png")))); reflexivity.
  - split; [reflexivity|].
    apply (proj1 (proj2 (proj2 (normalize_str_cases lower_latin1 (lit "http://x/y?z"))))).
    reflexivity.
  - split; [reflexivity|]. split; [reflexivity|].
    apply (proj2 (proj2 (proj2 (normalize_str_cases lower_latin1 (lit "ftp://x/y.png")))));
      reflexivity.
Defined.

Lemma clean_name_plain_witness :
  (40%N ∉ lit "  Freeze Corleone ") ∧ (91%N ∉ lit "  Freeze Corleone ")
  ∧ clean_name (lit "  Freeze Corleone ") = strip (lit "  Freeze Corleone ").
Proof.
  assert (40%N ∉ lit "  Freeze Corleone ") as H40 by (apply not_in_class; reflexivity).
  assert (91%N ∉ lit "  Freeze Corleone ") as H91 by (apply not_in_class; reflexivity).
  split; [exact H40|]. split; [exact H91|].
  exact (clean_name_plain (lit "  Freeze Corleone ") H40 H91).
Defined.

Lemma clean_name_idempotent_witness :
  flat false (lit "Drake (feat. 21 Savage) [Remix]") = true
  ∧ clean_name (clean_name (lit "Drake (feat. 21 Savage) [Remix]"))
    = clean_name (lit "Drake (feat. 21 Savage) [Remix]").
Proof.
  split; [reflexivity|].
  apply (clean_name_idempotent (lit "Drake (feat. 21 Savage) [Remix]")). reflexivity.
Defined.

Lemma split_artists_cut_witness :
  (59%N ∈ SINGLE_SEPS)
  ∧ split_artists (VStr (lit "PNL" ++ 59%N :: lit "Drake & Dave"))
    = (A ← split_artists (VStr (lit "PNL"));
       B ← split_artists (VStr (lit "Drake & Dave"));
       Ok (A ++ B)).
Proof.
  assert (59%N ∈ SINGLE_SEPS) as H by (apply in_class_spec; reflexivity).
  split; [exact H|].
  exact (proj1 (split_artists_cut lower_latin1 (lit "PNL") (lit "Drake & Dave") 59%N H)).
Defined.

Lemma read_csv_no_duplicates_witness :
  let rows : list (gmap (list N) pyval) := [ {[ lit "artist" := VStr (lit "PNL, Drake") ]} ] in
  scan_fragments rows = Ok [lit "PNL"; lit "Drake"]
  ∧ NoDup (lower_latin1 <$> [lit "PNL"; lit "Drake"])
  ∧ read_csv lower_latin1 (Some rows) = Ok [lit "PNL"; lit "Drake"].
Proof.
  cbv zeta.
  assert (NoDup (lower_latin1 <$> [lit "PNL"; lit "Drake"])) as Hnd.
  { cbn [fmap list_fmap]. apply NoDup_cons_2; [|apply NoDup_singleton].
    intros H. apply list_elem_of_singleton in H. vm_compute in H. discriminate H. }
  split; [reflexivity|]. split; [exact Hnd|].
  apply (read_csv_no_duplicates lower_latin1
           [ {[ lit "artist" := VStr (lit "PNL, Drake") ]} ] [lit "PNL"; lit "Drake"]);
    [reflexivity | exact Hnd].
Defined.


Lemma extract_image_top_image_witness :
  is_dict body_rejected_image = true
  ∧ or_else (lookup_key body_rejected_image (lit "Image"))
      (lookup_key body_rejected_image (lit "image")) = VStr (lit "ftp://x/y.png")
  ∧ nonempty (strip (lit "ftp://x/y.png")) = true
  ∧ normalize_str lower_latin1 (lit "ftp://x/y.png") = []
  ∧ extract_image lower_latin1 body_rejected_image
    = Ok (normalize_str lower_latin1 (lit "ftp://x/y.png")).
Proof.
  split; [reflexivity|]. split; [reflexivity|]. split; [reflexivity|]. split; [reflexivity|].
  apply (extract_image_top_image lower_latin1 body_rejected_image (lit "ftp://x/y.png"));
    reflexivity.
Defined.

Lemma body_not_object_witness :
  second_is_list (1 + length [lit "PNL"]) (query_url (λ s, s) (lit "Drake")) = Some (VList [])
  ∧ is_dict (VList []) = false
  ∧ read_csv lower_latin1 (Some sample_rows) = Ok ([lit "PNL"] ++ lit "Drake" :: [lit "Dave"])
  ∧ ddg_search_image lower_latin1 (λ s, s) second_is_list (1 + length [lit "PNL"]) (lit "Drake")
    = Raise AttributeError
  ∧ ∀ out, main lower_latin1 (λ s, s) second_is_list (λ _, 0) (Some sample_rows) ≠ Ok out.
Proof.
  split; [reflexivity|]. split; [reflexivity|].
  assert (read_csv lower_latin1 (Some sample_rows)
          = Ok ([lit "PNL"] ++ lit "Drake" :: [lit "Dave"])) as Hr by (by vm_compute).
  split; [exact Hr|].
  destruct (body_not_object lower_latin1 (λ s, s) second_is_list (λ _, 0)
              1 [lit "PNL"] (lit "Drake") [lit "Dave"] (VList []) eq_refl eq_refl)
    as (H1 & _ & H3).
  split; [exact H1|]. exact (H3 (Some sample_rows) eq_refl Hr).
Defined.

Lemma main_records_witness :
  ∃ out,
    main lower_latin1 (λ s, s) offline (λ _, 0) (Some sample_rows) = Ok out
    ∧ Forall (λ e, rating e ∈ RATINGS
                   ∧ region_of e = guess_region lower_latin1 (name e)
                   ∧ url e = lit "https://open.spotify.com/search/artist%3A" ++ name e
                   ∧ is_http (image e) = true) out.
Proof.
  destruct (main lower_latin1 (λ s, s) offline (λ _, 0) (Some sample_rows)) as [out|e] eqn:E.
  - exists out. split; [reflexivity|].
    exact (main_records lower_latin1 (λ s, s) offline (λ _, 0) (Some sample_rows) out E).
  - exfalso. vm_compute in E. discriminate E.
Defined.

Lemma extract_image_total_witness :
  typed_body body_typical = true
  ∧ ∃ r, extract_image lower_latin1 body_typical = Ok r
      ∧ (r = [] ∨ ((63%N ∉ r) ∧ is_http r = true))
      ∧ ∀ i artist,
          always body_typical i (query_url (λ s, s) artist) = Some body_typical →
          ddg_search_image lower_latin1 (λ s, s) (always body_typical) i artist = Ok r.
Proof.
  split; [reflexivity|].
  exact (extract_image_total lower_latin1 (λ s, s) (always body_typical) body_typical eq_refl).
Defined.

Lemma ddg_search_image_shape_witness :
  ddg_search_image lower_latin1 (λ s, s) (always body_typical) 1 (lit "PNL")
  = Ok (lit "https://duckduckgo.com/i/a.png")
  ∧ (lit "https://duckduckgo.com/i/a.png" = []
     ∨ ((63%N ∉ lit "https://duckduckgo.com/i/a.png")
        ∧ is_http (lit "https://duckduckgo.com/i/a.png") = true)).
Proof.
  split; [reflexivity|].
  apply (proj2 (ddg_search_image_shape lower_latin1 (λ s, s) (always body_typical))
           1 (lit "PNL")).
  reflexivity.
Defined.

(** C2, where the code departs from it: on a decoded body that is not an
    object, and on one whose icon is not an object, no image field is
    found, yet the resolver does not return the empty string: the lookup
    behind the [try] block raises an AttributeError, the builder puts no
    placeholder and the run of [main] ends without a list. *)
Lemma resolver_raises_without_image_field :
  (candidate nonblank (VList []) = None
   ∧ ddg_search_image lower_latin1 (λ s, s) (always (VList [])) 1 (lit "PNL")
     = Raise AttributeError
   ∧ build_entry lower_latin1 (λ s, s) (always (VList [])) (λ _, 0) 1 (lit "PNL")
     = Raise AttributeError
   ∧ main lower_latin1 (λ s, s) (always (VList [])) (λ _, 0) (Some sample_rows)
     = Raise AttributeError)
  ∧ (candidate nonblank body_icon_string = None
     ∧ ddg_search_image lower_latin1 (λ s, s) (always body_icon_string) 1 (lit "PNL")
       = Raise AttributeError
     ∧ build_entry lower_latin1 (λ s, s) (always body_icon_string) (λ _, 0) 1 (lit "PNL")
       = Raise AttributeError
     ∧ main lower_latin1 (λ s, s) (always body_icon_string) (λ _, 0) (Some sample_rows)
       = Raise AttributeError).
Proof. by vm_compute. Qed.
